(** * ProductiMate: the JSON tooling core

    A shallow embedding of the JSON formatter and structural diff of
    [src/components/JsonTools_new.tsx] and of the tree view of
    [src/components/JsonViewer.tsx], with the properties the specification
    states about them.

    Conventions of the embedding.
    - A JavaScript string is a [string]: a sequence of code units, here the
      8-bit ones.  The default [Array.prototype.sort] order on strings is the
      lexicographic order on code units, [String.compare].
    - A JSON number is an integer ([Z]).  The code under study only compares
      numbers with [===], tests their truthiness and hands them to the host
      serialiser, so no arithmetic on them is modelled.
    - A JavaScript object produced by [JSON.parse] or by [{}] followed by
      assignments is the list of its own properties in the order in which
      [Object.keys] and [JSON.stringify] enumerate them.
    - [JSON.parse] and [JSON.stringify] are host functions.  The functions of
      the program take them as parameters ([Section]s below); a reference
      implementation of both, [RefJSON], instantiates them on concrete
      documents. *)

From Stdlib Require Import ZArith Ascii String DecimalString DecimalNat DecimalZ Lia.
From Stdlib Require Import Sorted Permutation.
From stdpp Require Import gmap strings list sorting.

Set Default Goal Selector "!".
Set Warnings "-clear-no-such-hyp".

(** ** Value model *)

Unset Elimination Schemes.
Inductive Value : Type :=
  | JNull
  | JBool (b : bool)
  | JNumber (n : Z)
  | JString (s : string)
  | JArray (items : list Value)
  | JObject (props : list (string * Value)).
Set Elimination Schemes.

(** Induction over a value and, below an array or an object, over each of its
    immediate children. *)
Definition Value_ind (P : Value -> Prop)
    (Hnull : P JNull)
    (Hbool : forall b, P (JBool b))
    (Hnumber : forall n, P (JNumber n))
    (Hstring : forall s, P (JString s))
    (Harray : forall items, Forall P items -> P (JArray items))
    (Hobject : forall props, Forall (fun kv => P (snd kv)) props -> P (JObject props)) :
  forall v, P v :=
  fix value_ind (v : Value) : P v :=
    match v with
    | JNull => Hnull
    | JBool b => Hbool b
    | JNumber n => Hnumber n
    | JString s => Hstring s
    | JArray items =>
        Harray items
          ((fix items_ind (l : list Value) : Forall P l :=
              match l with
              | [] => @List.Forall_nil _ P
              | x :: l' => @List.Forall_cons _ P x l' (value_ind x) (items_ind l')
              end) items)
    | JObject props =>
        Hobject props
          ((fix props_ind (l : list (string * Value)) : Forall (fun kv => P (snd kv)) l :=
              match l with
              | [] => @List.Forall_nil _ _
              | kv :: l' => @List.Forall_cons _ _ kv l' (value_ind (snd kv)) (props_ind l')
              end) props)
    end.

(** ** The host: the parts of JavaScript and lodash the program calls *)

Module Js.

(** [typeof x !== 'object' || x === null] *)
Definition is_primitive (x : Value) : bool :=
  match x with
  | JArray _ | JObject _ => false
  | _ => true
  end.

(** [Array.isArray(x)] *)
Definition isArray (x : Value) : bool :=
  match x with
  | JArray _ => true
  | _ => false
  end.

(** ToBoolean: [null], [false], [0] and the empty string are falsy. *)
Definition truthy (x : Value) : bool :=
  match x with
  | JNull => false
  | JBool b => b
  | JNumber n => negb (n =? 0)%Z
  | JString s => negb (String.eqb s "")
  | JArray _ | JObject _ => true
  end.

(** Decimal rendering of an array index or a length inside a template
    literal. *)
Definition nat_to_string (n : nat) : string :=
  NilEmpty.string_of_uint (Nat.to_uint n).

(** [String(n)] for an integral number. *)
Definition Z_to_string (n : Z) : string :=
  NilEmpty.string_of_int (Z.to_int n).

(** White space and line terminators removed by [String.prototype.trim]
    (those below 256: TAB, LF, VT, FF, CR, SP, NBSP). *)
Definition is_space (c : ascii) : bool :=
  let n := nat_of_ascii c in
  ((9 <=? n) && (n <=? 13)) || (n =? 32) || (n =? 160).

Fixpoint trimStart (s : string) : string :=
  match s with
  | EmptyString => EmptyString
  | String c rest => if is_space c then trimStart rest else s
  end.

Fixpoint trimEnd (s : string) : string :=
  match s with
  | EmptyString => EmptyString
  | String c rest =>
      match trimEnd rest with
      | EmptyString => if is_space c then EmptyString else String c EmptyString
      | t => String c t
      end
  end.

Definition trim (s : string) : string := trimEnd (trimStart s).

(** [!s] for a string [s]. *)
Definition is_empty (s : string) : bool := String.eqb s "".

(** [Object.keys(obj)] *)
Definition keys (props : list (string * Value)) : list string := map fst props.

(** [f(obj[key])] for an own property [key]; [None] when [obj] has no such
    own property.  The continuation [f] is applied at the place where the
    property is found. *)
Definition own_with {A} (f : Value -> A) (key : string) :
    list (string * Value) -> option A :=
  fix go props :=
    match props with
    | [] => None
    | (k, v) :: rest => if String.eqb k key then Some (f v) else go rest
    end.

(** [obj[key]] *)
Definition own (key : string) (props : list (string * Value)) : option Value :=
  own_with (fun v => v) key props.

(** [f(arr[i])]; [None] when [i] is out of range. *)
Definition at_with {A} (f : Value -> A) : list Value -> nat -> option A :=
  fix go items i :=
    match items, i with
    | [], _ => None
    | x :: _, O => Some (f x)
    | _ :: rest, S j => go rest j
    end.

(** [arr[i]] *)
Definition at_index (items : list Value) (i : nat) : option Value :=
  at_with (fun v => v) items i.

(** [keys.includes(key)] *)
Definition includes (ks : list string) (key : string) : bool :=
  existsb (String.eqb key) ks.

(** [new Set(iterable)], spread back into an array: the elements in the
    order of their first insertion. *)
Definition set_add (s : list string) (x : string) : list string :=
  if includes s x then s else s ++ [x].

Definition new_Set (l : list string) : list string := fold_left set_add l [].

(** [keys.sort()] with the default comparison: insertion into ascending
    code-unit order. *)
Fixpoint sort_insert (x : string) (l : list string) : list string :=
  match l with
  | [] => [x]
  | y :: l' => if String.leb x y then x :: l else y :: sort_insert x l'
  end.

Definition sort (l : list string) : list string := foldr sort_insert [] l.

(** An array index is a canonical numeric string below [2^32 - 1]; own
    properties with such keys are enumerated first, in ascending numeric
    order. *)
Definition array_index (key : string) : option N :=
  match NilEmpty.uint_of_string key with
  | Some d =>
      let n := N.of_uint d in
      if String.eqb (NilEmpty.string_of_uint (N.to_uint n)) key && (n <? 4294967295)%N
      then Some n else None
  | None => None
  end.

(** Position of a new own property among the existing ones: an array index
    goes before the first property that is not a smaller array index, any
    other key goes last. *)
Fixpoint add_own (key : string) (v : Value) (props : list (string * Value)) :
    list (string * Value) :=
  match props with
  | [] => [(key, v)]
  | (k, w) :: rest =>
      match array_index key with
      | None => (k, w) :: add_own key v rest
      | Some n =>
          match array_index k with
          | Some m => if (m <? n)%N then (k, w) :: add_own key v rest
                      else (key, v) :: props
          | None => (key, v) :: props
          end
      end
  end.

Fixpoint replace_own (key : string) (v : Value) (props : list (string * Value)) :
    list (string * Value) :=
  match props with
  | [] => []
  | (k, w) :: rest =>
      if String.eqb k key then (k, v) :: rest else (k, w) :: replace_own key v rest
  end.

(** CreateDataProperty, as [JSON.parse] uses it: an existing own property
    keeps its place and takes the new value. *)
Definition define_own (props : list (string * Value)) (key : string) (v : Value) :
    list (string * Value) :=
  if includes (keys props) key then replace_own key v props else add_own key v props.

(** The assignment [obj[key] = v] on an object created by [{}].  The key
    ["__proto__"] reaches the accessor inherited from [Object.prototype],
    which creates no own property; every other key defines an own data
    property. *)
Definition assign (props : list (string * Value)) (key : string) (v : Value) :
    list (string * Value) :=
  if String.eqb key "__proto__" then props else define_own props key v.

(** lodash [isEqual] on JSON values: strict equality on primitives,
    arrays by length and position, objects by their own keys whatever
    their order. *)
Fixpoint isEqual (a b : Value) {struct a} : bool :=
  match a, b with
  | JNull, JNull => true
  | JBool x, JBool y => Bool.eqb x y
  | JNumber x, JNumber y => (x =? y)%Z
  | JString x, JString y => String.eqb x y
  | JArray xs, JArray ys =>
      (length xs =? length ys) &&
      forallb (fun i =>
                 match at_index ys i with
                 | Some y => default false (at_with (fun x => isEqual x y) xs i)
                 | None => false
                 end) (seq 0 (length xs))
  | JObject ps, JObject qs =>
      (length ps =? length qs) &&
      forallb (fun key =>
                 match own key qs with
                 | Some y => default false (own_with (fun x => isEqual x y) key ps)
                 | None => false
                 end) (keys ps)
  | _, _ => false
  end.

(** [s.toLowerCase()] on code units below 256: the letters [A]-[Z] and the
    Latin-1 capitals other than the multiplication sign move up by 32. *)
Definition lower_char (c : ascii) : ascii :=
  let n := nat_of_ascii c in
  if ((65 <=? n) && (n <=? 90)) || ((192 <=? n) && (n <=? 222) && negb (n =? 215))
  then ascii_of_nat (n + 32)
  else c.

Fixpoint toLowerCase (s : string) : string :=
  match s with
  | EmptyString => EmptyString
  | String c rest => String (lower_char c) (toLowerCase rest)
  end.

(** [s.startsWith(t)] *)
Fixpoint startsWith (s t : string) : bool :=
  match t, s with
  | EmptyString, _ => true
  | String a t', String b s' => Ascii.eqb a b && startsWith s' t'
  | String _ _, EmptyString => false
  end.

(** [s.includes(t)] on strings: [t] occurs in [s] at some position. *)
Fixpoint str_includes (s t : string) : bool :=
  startsWith s t
  || match s with
     | String _ rest => str_includes rest t
     | EmptyString => false
     end.

(** [String(x)].  An array is its items joined by commas, [null] items
    giving the empty string.  An object without an own property [toString]
    is ["[object Object]"]; with one, which for a parsed value is never a
    function, the conversion throws a [TypeError]: [None]. *)
Fixpoint ToString (x : Value) : option string :=
  match x with
  | JNull => Some "null"
  | JBool true => Some "true"
  | JBool false => Some "false"
  | JNumber n => Some (Z_to_string n)
  | JString s => Some s
  | JArray items =>
      String.concat "," <$>
        mapM (fun item => match item with JNull => Some EmptyString | _ => ToString item end)
          items
  | JObject props =>
      match own "toString" props with
      | Some _ => None
      | None => Some "[object Object]"
      end
  end.

(** [s.split('.')] *)
Fixpoint split_dot (s : string) : list string :=
  match s with
  | EmptyString => [EmptyString]
  | String c rest =>
      if Ascii.eqb c "." then EmptyString :: split_dot rest
      else
        match split_dot rest with
        | piece :: pieces => String c piece :: pieces
        | [] => [String c EmptyString]
        end
  end.

End Js.

(** ** [JsonTools_new.tsx]: formatter and structural diff *)

Module JsonTools.
Import Js.

Inductive DiffType : Type := added | removed | changed | unchanged.

(** [interface JsonDiffResult]; an optional field that is left out is
    [None]. *)
Record JsonDiffResult : Type := {
  path : string;
  type : DiffType;
  leftValue : option Value;
  rightValue : option Value;
}.

(** [sortObjectKeys]; [obj[key]] is read at a key of [Object.keys(obj)], so
    the branch [None] of the loop is never taken. *)
Fixpoint sortObjectKeys (obj : Value) : Value :=
  match obj with
  | JArray items => JArray (map sortObjectKeys items)
  | JObject props =>
      let sortedKeys := sort (keys props) in
      JObject
        (fold_left
           (fun sortedObj key =>
              match own_with sortObjectKeys key props with
              | Some v => assign sortedObj key v
              | None => sortedObj
              end)
           sortedKeys [])
  | _ => obj
  end.

(** [path || 'root'] *)
Definition or_root (path : string) : string :=
  if is_empty path then "root" else path.

(** [generateSmartJsonDiff]; [left[i]], [right[i]], [left[key]] and
    [right[key]] are read where they exist, so the branches that return the
    empty list on a missing item or property, and the last branch of the
    [match] (both sides are arrays, or both are objects, at that point), are
    never taken. *)
Fixpoint generateSmartJsonDiff (left right : Value) (path : string) {struct left} :
    list JsonDiffResult :=
  if is_primitive left || is_primitive right then
    if negb (isEqual left right) then
      [ {| path := or_root path; type := changed;
           leftValue := Some left; rightValue := Some right |} ]
    else
      [ {| path := or_root path; type := unchanged;
           leftValue := Some left; rightValue := Some right |} ]
  else if negb (Bool.eqb (isArray left) (isArray right)) then
    [ {| path := or_root path; type := changed;
         leftValue := Some left; rightValue := Some right |} ]
  else
    match left, right with
    | JArray la, JArray ra =>
        let maxLength := Nat.max (length la) (length ra) in
        flat_map
          (fun i =>
             let currentPath := path +:+ "[" +:+ nat_to_string i +:+ "]" in
             if length la <=? i then
               [ {| path := currentPath; type := added;
                    leftValue := None; rightValue := at_index ra i |} ]
             else if length ra <=? i then
               [ {| path := currentPath; type := removed;
                    leftValue := at_index la i; rightValue := None |} ]
             else
               match at_index ra i with
               | Some r_i =>
                   default []
                     (at_with (fun l_i => generateSmartJsonDiff l_i r_i currentPath) la i)
               | None => []
               end)
          (seq 0 maxLength)
    | JObject lp, JObject rp =>
        let leftKeys := keys lp in
        let rightKeys := keys rp in
        let allKeys := new_Set (leftKeys ++ rightKeys) in
        flat_map
          (fun key =>
             let currentPath := if is_empty path then key else path +:+ "." +:+ key in
             let leftHasKey := includes leftKeys key in
             let rightHasKey := includes rightKeys key in
             if leftHasKey && rightHasKey then
               match own key rp with
               | Some r_k =>
                   default []
                     (own_with (fun l_k => generateSmartJsonDiff l_k r_k currentPath) key lp)
               | None => []
               end
             else if leftHasKey && negb rightHasKey then
               [ {| path := currentPath; type := removed;
                    leftValue := own key lp; rightValue := None |} ]
             else if negb leftHasKey && rightHasKey then
               [ {| path := currentPath; type := added;
                    leftValue := None; rightValue := own key rp |} ]
             else [])
          allKeys
    | _, _ => []
    end.

Section Host.
(** [JSON.parse]: [None] when it throws. *)
Variable JSON_parse : string -> option Value.
(** [JSON.stringify(value, null, space)]; [JSON.stringify(value)] is the
    call with [space = 0]. *)
Variable JSON_stringify : Value -> nat -> string.

Definition formattedJson (jsonInput : string) (indentSize : nat)
    (sortKeys compactMode : bool) : string :=
  if is_empty (trim jsonInput) then ""
  else
    match JSON_parse jsonInput with
    | Some parsed =>
        if compactMode then JSON_stringify parsed 0
        else if sortKeys then
          let sortedParsed := sortObjectKeys parsed in
          JSON_stringify sortedParsed indentSize
        else JSON_stringify parsed indentSize
    | None => ""
    end.

Definition isValidJson (jsonInput : string) : bool :=
  if is_empty (trim jsonInput) then true
  else
    match JSON_parse jsonInput with
    | Some _ => true
    | None => false
    end.

Definition diffResult (leftJson rightJson : string) : list JsonDiffResult :=
  if is_empty (trim leftJson) || is_empty (trim rightJson) then []
  else
    match JSON_parse leftJson with
    | Some leftParsed =>
        match JSON_parse rightJson with
        | Some rightParsed => generateSmartJsonDiff leftParsed rightParsed ""
        | None => []
        end
    | None => []
    end.
End Host.

(** [diff.type === t] *)
Definition type_is (t : DiffType) (diff : JsonDiffResult) : bool :=
  match type diff, t with
  | added, added | removed, removed | changed, changed | unchanged, unchanged => true
  | _, _ => false
  end.

(** [filteredDiffResult], as a function of [diffResult]. *)
Definition filteredDiffResult (showOnlyDiffs : bool) (diffResult : list JsonDiffResult) :
    list JsonDiffResult :=
  if negb showOnlyDiffs then diffResult
  else List.filter (fun diff => negb (type_is unchanged diff)) diffResult.

(** The count of a badge of the comparison toolbar:
    [diffResult.filter(d => d.type === t).length]. *)
Definition badgeCount (t : DiffType) (diffResult : list JsonDiffResult) : nat :=
  length (List.filter (type_is t) diffResult).

End JsonTools.

(** ** [JsonViewer.tsx]: the tree view *)

Module JsonViewer.
Import Js.

Inductive NodeType : Type :=
  t_object | t_array | t_string | t_number | t_boolean | t_null.

(** [interface JsonNode] *)
Record JsonNode : Type := {
  key : string;
  value : Value;
  type : NodeType;
  path : string;
  level : nat;
  isExpanded : bool;
  hasChildren : bool;
  isVisible : bool;
}.

(** [typeof obj] of a primitive that is not [null], and [String(obj)]. *)
Definition typeof (obj : Value) : NodeType :=
  match obj with
  | JBool _ => t_boolean
  | JNumber _ => t_number
  | _ => t_string
  end.

Definition String_of (obj : Value) : string :=
  match obj with
  | JBool true => "true"
  | JBool false => "false"
  | JNumber n => Z_to_string n
  | JString s => s
  | _ => ""
  end.

(** [arr.forEach((item, index) => ...)], the results appended in order. *)
Definition forEach {A} (f : Value -> nat -> list A) : list Value -> nat -> list A :=
  fix go items index :=
    match items with
    | [] => []
    | item :: rest => f item index ++ go rest (S index)
    end.

Section Expanded.
Variable expandedPaths : gset string.

Fixpoint parseJsonToNodes (obj : Value) (parentPath : string) (level : nat) {struct obj} :
    list JsonNode :=
  match obj with
  | JNull =>
      [ {| key := "null"; value := JNull; type := t_null; path := parentPath;
           level := level; isExpanded := false; hasChildren := false;
           isVisible := true |} ]
  | JBool _ | JNumber _ | JString _ =>
      [ {| key := String_of obj; value := obj; type := typeof obj; path := parentPath;
           level := level; isExpanded := false; hasChildren := false;
           isVisible := true |} ]
  | JArray items =>
      let arrayPath := parentPath in
      let isExpanded := bool_decide (arrayPath ∈ expandedPaths) in
      {| key := "Array(" +:+ nat_to_string (length items) +:+ ")"; value := obj;
         type := t_array; path := arrayPath; level := level;
         isExpanded := isExpanded; hasChildren := 0 <? length items;
         isVisible := true |}
      :: (if isExpanded then
            forEach
              (fun item index =>
                 let itemPath := arrayPath +:+ "[" +:+ nat_to_string index +:+ "]" in
                 parseJsonToNodes item itemPath (level + 1))
              items 0
          else [])
  | JObject props =>
      let objectPath := parentPath in
      let keys := keys props in
      {| key := "Object{" +:+ nat_to_string (length keys) +:+ "}"; value := obj;
         type := t_object; path := objectPath; level := level;
         isExpanded := bool_decide (objectPath ∈ expandedPaths);
         hasChildren := 0 <? length keys; isVisible := true |}
      :: (if bool_decide (objectPath ∈ expandedPaths) then
            flat_map
              (fun key =>
                 let childPath :=
                   if is_empty parentPath then key else parentPath +:+ "." +:+ key in
                 default []
                   (own_with (fun child => parseJsonToNodes child childPath (level + 1))
                      key props))
              keys
          else [])
  end.
End Expanded.

(** [getAllPaths] of [expandAll] *)
Fixpoint getAllPaths (obj : Value) (parentPath : string) {struct obj} : list string :=
  parentPath ::
  match obj with
  | JArray items =>
      forEach
        (fun item index =>
           let itemPath := parentPath +:+ "[" +:+ nat_to_string index +:+ "]" in
           getAllPaths item itemPath)
        items 0
  | JObject props =>
      flat_map
        (fun key =>
           let childPath :=
             if is_empty parentPath then key else parentPath +:+ "." +:+ key in
           default [] (own_with (fun child => getAllPaths child childPath) key props))
        (keys props)
  | _ => []
  end.

(** The component state ([useState]). *)
Record State : Type := {
  jsonInput : string;
  searchTerm : string;
  expandedPaths : gset string;
  parsedJson : Value;
}.

Definition initial : State :=
  {| jsonInput := ""; searchTerm := ""; expandedPaths := ∅; parsedJson := JNull |}.

Definition setParsedJson (v : Value) (st : State) : State :=
  {| jsonInput := jsonInput st; searchTerm := searchTerm st;
     expandedPaths := expandedPaths st; parsedJson := v |}.

Definition setExpandedPaths (s : gset string) (st : State) : State :=
  {| jsonInput := jsonInput st; searchTerm := searchTerm st;
     expandedPaths := s; parsedJson := parsedJson st |}.

Definition setJsonInput (s : string) (st : State) : State :=
  {| jsonInput := s; searchTerm := searchTerm st;
     expandedPaths := expandedPaths st; parsedJson := parsedJson st |}.

Definition toggleExpanded (path : string) (st : State) : State :=
  let prev := expandedPaths st in
  setExpandedPaths
    (if bool_decide (path ∈ prev) then prev ∖ {[path]} else prev ∪ {[path]}) st.

Definition expandAll (st : State) : State :=
  if negb (truthy (parsedJson st)) then st
  else setExpandedPaths (list_to_set (getAllPaths (parsedJson st) "")) st.

Definition collapseAll (st : State) : State :=
  setExpandedPaths {[ ""%string ]} st.

Definition nodes (st : State) : list JsonNode :=
  if negb (truthy (parsedJson st)) then []
  else parseJsonToNodes (expandedPaths st) (parsedJson st) "" 0.

(** [Object.is(prev, next)] for a dependency [next] that [JSON.parse] has
    just returned: a fresh array or object is identical to nothing that
    existed before, a primitive is identical to the same primitive. *)
Definition same_dependency (prev next : Value) : bool :=
  match prev, next with
  | JNull, JNull => true
  | JBool x, JBool y => Bool.eqb x y
  | JNumber x, JNumber y => (x =? y)%Z
  | JString x, JString y => String.eqb x y
  | _, _ => false
  end.

(** The body of [useEffect(..., [parsedJson])]. *)
Definition resetExpanded (st : State) : State :=
  match parsedJson st with
  | JNull => st
  | _ => setExpandedPaths {[ ""%string ]} st
  end.

(** The effect runs after a render whose [parsedJson] is not the one of
    the render before. *)
Definition runEffect (prev st : State) : State :=
  if same_dependency (parsedJson prev) (parsedJson st) then st else resetExpanded st.

Section Host.
Variable JSON_parse : string -> option Value.

Definition handleJsonInput (value : string) (st : State) : State :=
  let st := setJsonInput value st in
  if is_empty (trim value) then setParsedJson JNull st
  else
    match JSON_parse value with
    | Some parsed => setParsedJson parsed st
    | None => setParsedJson JNull st
    end.

(** One change of the text area: the handler, then the effects of the
    render it causes. *)
Definition onChange (value : string) (st : State) : State :=
  runEffect st (handleJsonInput value st).
End Host.

(** The test of [filteredNodes] on one row; [String(node.value)] is
    evaluated only when the path does not hold the term, and may throw. *)
Definition matchesSearch (searchTerm : string) (node : JsonNode) : option bool :=
  if str_includes (toLowerCase (path node)) (toLowerCase searchTerm) then Some true
  else
    text ← ToString (value node);
    Some (str_includes (toLowerCase text) (toLowerCase searchTerm)).

(** [nodes.filter(test)], for a test that may throw: the rows are tested in
    order and the first exception ends the call. *)
Fixpoint filter_rows (test : JsonNode -> option bool) (nodes : list JsonNode) :
    option (list JsonNode) :=
  match nodes with
  | [] => Some []
  | node :: rest =>
      keep ← test node;
      kept ← filter_rows test rest;
      Some (if keep : bool then node :: kept else kept)
  end.

(** [filteredNodes], as a function of [nodes]; [None] when it throws. *)
Definition filteredNodes (searchTerm : string) (nodes : list JsonNode) :
    option (list JsonNode) :=
  if is_empty searchTerm then Some nodes
  else filter_rows (matchesSearch searchTerm) nodes.

(** The name shown in front of a row, for a row with a path:
    [node.path && (node.path.split('.').pop() || node.path)]. *)
Definition rowLabel (node : JsonNode) : option string :=
  if is_empty (path node) then None
  else
    let piece := List.last (split_dot (path node)) EmptyString in
    Some (if is_empty piece then path node else piece).

End JsonViewer.

(** ** A reference implementation of the host's [JSON] object

    [JSON.stringify] follows SerializeJSONProperty of ECMA-262, [JSON.parse]
    the JSON grammar.  With integer numbers and 8-bit code units, a number
    literal with a fraction or an exponent and a [\u] escape above [00ff]
    are outside the model; the parser reports them apart from a syntax
    error. *)

Module RefJSON.
Import Js.

Definition dquote : ascii := ascii_of_nat 34.
Definition backslash : ascii := ascii_of_nat 92.
Definition newline : ascii := ascii_of_nat 10.

Definition hex_digit (n : nat) : ascii :=
  if n <? 10 then ascii_of_nat (48 + n) else ascii_of_nat (87 + n).

(** QuoteJSONString *)
Definition quote_char (c : ascii) : string :=
  let n := nat_of_ascii c in
  if n =? 8 then String backslash "b"
  else if n =? 9 then String backslash "t"
  else if n =? 10 then String backslash "n"
  else if n =? 12 then String backslash "f"
  else if n =? 13 then String backslash "r"
  else if n =? 34 then String backslash (String dquote EmptyString)
  else if n =? 92 then String backslash (String backslash EmptyString)
  else if n <? 32 then
    String backslash ("u00" +:+ String (hex_digit (n / 16)) (String (hex_digit (n mod 16)) EmptyString))
  else String c EmptyString.

Fixpoint quote_chars (s : string) : string :=
  match s with
  | EmptyString => EmptyString
  | String c rest => quote_char c +:+ quote_chars rest
  end.

Definition quote (s : string) : string :=
  String dquote (quote_chars s +:+ String dquote EmptyString).

Fixpoint spaces (n : nat) : string :=
  match n with
  | O => EmptyString
  | S m => String " " (spaces m)
  end.

(** The members of an array or an object between their brackets. *)
Definition wrap (opening closing : string) (gap stepback : string) (partial : list string) :
    string :=
  match partial with
  | [] => opening +:+ closing
  | _ =>
      if is_empty gap then opening +:+ String.concat "," partial +:+ closing
      else
        let indent := stepback +:+ gap in
        let separator := "," +:+ String newline indent in
        opening +:+ String newline indent +:+ String.concat separator partial
        +:+ String newline stepback +:+ closing
  end.

Fixpoint serialize (gap indent : string) (v : Value) {struct v} : string :=
  match v with
  | JNull => "null"
  | JBool true => "true"
  | JBool false => "false"
  | JNumber n => Z_to_string n
  | JString s => quote s
  | JArray items =>
      wrap "[" "]" gap indent (map (serialize gap (indent +:+ gap)) items)
  | JObject props =>
      wrap "{" "}" gap indent
        (map (fun kv =>
                let '(k, w) := kv in
                quote k +:+ ":" +:+ (if is_empty gap then EmptyString else " ")
                +:+ serialize gap (indent +:+ gap) w)
           props)
  end.

(** [JSON.stringify(value, null, space)] *)
Definition JSON_stringify (value : Value) (space : nat) : string :=
  serialize (spaces (Nat.min space 10)) EmptyString value.

Inductive outcome (A : Type) : Type :=
  | Parsed (a : A) (rest : string)
  | Syntax_error
  | Outside_model
  | Out_of_fuel.
Arguments Parsed {A} a rest.
Arguments Syntax_error {A}.
Arguments Outside_model {A}.
Arguments Out_of_fuel {A}.

Definition bind {A B} (o : outcome A) (k : A -> string -> outcome B) : outcome B :=
  match o with
  | Parsed a rest => k a rest
  | Syntax_error => Syntax_error
  | Outside_model => Outside_model
  | Out_of_fuel => Out_of_fuel
  end.

(** JSON white space: TAB, LF, CR, SP. *)
Definition is_ws (c : ascii) : bool :=
  let n := nat_of_ascii c in
  (n =? 9) || (n =? 10) || (n =? 13) || (n =? 32).

Fixpoint skip_ws (s : string) : string :=
  match s with
  | String c rest => if is_ws c then skip_ws rest else s
  | EmptyString => EmptyString
  end.

Fixpoint expect (word : string) (s : string) : option string :=
  match word, s with
  | EmptyString, _ => Some s
  | String a word', String b s' => if Ascii.eqb a b then expect word' s' else None
  | String _ _, EmptyString => None
  end.

Definition digit_of (c : ascii) : option Z :=
  let n := nat_of_ascii c in
  if (48 <=? n) && (n <=? 57) then Some (Z.of_nat (n - 48)) else None.

Definition is_digit (c : ascii) : bool :=
  match digit_of c with
  | Some _ => true
  | None => false
  end.

Fixpoint digits (acc : Z) (s : string) : Z * string :=
  match s with
  | String c rest =>
      match digit_of c with
      | Some d => digits (10 * acc + d) rest
      | None => (acc, s)
      end
  | EmptyString => (acc, s)
  end.

Definition starts_fraction_or_exponent (s : string) : bool :=
  match s with
  | String c _ => Ascii.eqb c "." || Ascii.eqb c "e" || Ascii.eqb c "E"
  | EmptyString => false
  end.

(** The digits of a number, after its sign. *)
Definition parse_unsigned (s : string) : outcome Z :=
  match s with
  | String c rest =>
      match digit_of c with
      | Some 0%Z =>
          match rest with
          | String c' _ =>
              if is_digit c' then Syntax_error
              else if starts_fraction_or_exponent rest then Outside_model
              else Parsed 0%Z rest
          | EmptyString => Parsed 0%Z rest
          end
      | Some d =>
          let '(n, rest') := digits d rest in
          if starts_fraction_or_exponent rest' then Outside_model else Parsed n rest'
      | None => Syntax_error
      end
  | EmptyString => Syntax_error
  end.

Definition hex_of (c : ascii) : option nat :=
  let n := nat_of_ascii c in
  if (48 <=? n) && (n <=? 57) then Some (n - 48)
  else if (65 <=? n) && (n <=? 70) then Some (n - 55)
  else if (97 <=? n) && (n <=? 102) then Some (n - 87)
  else None.

(** The four hexadecimal digits of a [\u] escape. *)
Definition parse_unicode (s : string) : outcome ascii :=
  match s with
  | String a (String b (String c (String d rest))) =>
      match hex_of a, hex_of b, hex_of c, hex_of d with
      | Some x3, Some x2, Some x1, Some x0 =>
          if (x3 =? 0) && (x2 =? 0) then Parsed (ascii_of_nat (16 * x1 + x0)) rest
          else Outside_model
      | _, _, _, _ => Syntax_error
      end
  | _ => Syntax_error
  end.

(** The characters of a string literal, after its opening quote. *)
Fixpoint parse_chars (fuel : nat) (s : string) : outcome string :=
  match fuel with
  | O => Out_of_fuel
  | S fuel =>
      match s with
      | EmptyString => Syntax_error
      | String c rest =>
          if Ascii.eqb c dquote then Parsed EmptyString rest
          else if Ascii.eqb c backslash then
            match rest with
            | String e rest' =>
                let literally (x : ascii) :=
                  bind (parse_chars fuel rest') (fun t r => Parsed (String x t) r) in
                if Ascii.eqb e dquote then literally dquote
                else if Ascii.eqb e backslash then literally backslash
                else if Ascii.eqb e "/" then literally "/"%char
                else if Ascii.eqb e "b" then literally (ascii_of_nat 8)
                else if Ascii.eqb e "f" then literally (ascii_of_nat 12)
                else if Ascii.eqb e "n" then literally (ascii_of_nat 10)
                else if Ascii.eqb e "r" then literally (ascii_of_nat 13)
                else if Ascii.eqb e "t" then literally (ascii_of_nat 9)
                else if Ascii.eqb e "u" then
                  bind (parse_unicode rest')
                    (fun x r => bind (parse_chars fuel r) (fun t r' => Parsed (String x t) r'))
                else Syntax_error
            | EmptyString => Syntax_error
            end
          else if nat_of_ascii c <? 32 then Syntax_error
          else bind (parse_chars fuel rest) (fun t r => Parsed (String c t) r)
      end
  end.

Definition parse_string (s : string) : outcome string :=
  match s with
  | String c rest =>
      if Ascii.eqb c dquote then parse_chars (String.length s) rest else Syntax_error
  | EmptyString => Syntax_error
  end.

Definition first_is (c : ascii) (s : string) : option string :=
  match s with
  | String c' rest => if Ascii.eqb c c' then Some rest else None
  | EmptyString => None
  end.

Fixpoint parse_value (fuel : nat) (s : string) {struct fuel} : outcome Value :=
  match fuel with
  | O => Out_of_fuel
  | S fuel =>
      match skip_ws s with
      | EmptyString => Syntax_error
      | String c rest as s' =>
          if Ascii.eqb c "n" then
            match expect "ull" rest with Some r => Parsed JNull r | None => Syntax_error end
          else if Ascii.eqb c "t" then
            match expect "rue" rest with Some r => Parsed (JBool true) r | None => Syntax_error end
          else if Ascii.eqb c "f" then
            match expect "alse" rest with Some r => Parsed (JBool false) r | None => Syntax_error end
          else if Ascii.eqb c dquote then
            bind (parse_string s') (fun t r => Parsed (JString t) r)
          else if Ascii.eqb c "-" then
            bind (parse_unsigned rest) (fun n r => Parsed (JNumber (- n)) r)
          else if is_digit c then
            bind (parse_unsigned s') (fun n r => Parsed (JNumber n) r)
          else if Ascii.eqb c "[" then
            match first_is "]" (skip_ws rest) with
            | Some r => Parsed (JArray []) r
            | None => parse_items fuel rest []
            end
          else if Ascii.eqb c "{" then
            match first_is "}" (skip_ws rest) with
            | Some r => Parsed (JObject []) r
            | None => parse_members fuel rest []
            end
          else Syntax_error
      end
  end
with parse_items (fuel : nat) (s : string) (acc : list Value) {struct fuel} : outcome Value :=
  match fuel with
  | O => Out_of_fuel
  | S fuel =>
      bind (parse_value fuel s)
        (fun v r =>
           let r := skip_ws r in
           match first_is "," r, first_is "]" r with
           | Some r', _ => parse_items fuel r' (acc ++ [v])
           | None, Some r' => Parsed (JArray (acc ++ [v])) r'
           | None, None => Syntax_error
           end)
  end
with parse_members (fuel : nat) (s : string) (acc : list (string * Value)) {struct fuel} :
    outcome Value :=
  match fuel with
  | O => Out_of_fuel
  | S fuel =>
      bind (parse_string (skip_ws s))
        (fun k r =>
           match first_is ":" (skip_ws r) with
           | None => Syntax_error
           | Some r =>
               bind (parse_value fuel r)
                 (fun v r =>
                    let r := skip_ws r in
                    match first_is "," r, first_is "}" r with
                    | Some r', _ => parse_members fuel r' (define_own acc k v)
                    | None, Some r' => Parsed (JObject (define_own acc k v)) r'
                    | None, None => Syntax_error
                    end)
           end)
  end.

Definition parse_text (text : string) : outcome Value :=
  bind (parse_value (2 * String.length text + 2) text)
    (fun v r => if is_empty (skip_ws r) then Parsed v EmptyString else Syntax_error).

(** [JSON.parse(text)]; [None] stands for the exception it throws. *)
Definition JSON_parse (text : string) : option Value :=
  match parse_text text with
  | Parsed v _ => Some v
  | _ => None
  end.

End RefJSON.

(** ** Notions of the specification *)

Module Spec.
Import Js.

(** A parsed JSON value: the keys of every object are pairwise distinct. *)
Fixpoint well_formed (v : Value) : bool :=
  match v with
  | JArray items => forallb well_formed items
  | JObject props =>
      bool_decide (NoDup (keys props))
      && forallb (fun kv => let '(_, w) := kv in well_formed w) props
  | _ => true
  end.

(** Every object key of the value, at every level, satisfies [ok]. *)
Fixpoint all_keys (ok : string -> bool) (v : Value) : bool :=
  match v with
  | JArray items => forallb (all_keys ok) items
  | JObject props =>
      forallb (fun kv => let '(k, w) := kv in ok k && all_keys ok w) props
  | _ => true
  end.

(** The non-container nodes of a value, in document order. *)
Fixpoint leaves (v : Value) : list Value :=
  match v with
  | JArray items => flat_map leaves items
  | JObject props => flat_map (fun kv => let '(_, w) := kv in leaves w) props
  | _ => [v]
  end.

(** A key that is neither an array index nor ["__proto__"]. *)
Definition plain_key (k : string) : bool :=
  match array_index k with
  | Some _ => false
  | None => negb (String.eqb k "__proto__")
  end.

(** The lexicographic order on keys, code unit by code unit. *)
Definition key_le (a b : string) : Prop := String.leb a b = true.
Definition key_lt (a b : string) : Prop := String.ltb a b = true.

(** [w] is [v] with the keys of every object, at every level, reordered
    into ascending lexicographic order; the items of every array keep
    their place. *)
#[local] Unset Elimination Schemes.
Inductive sorted_copy : Value -> Value -> Prop :=
  | sorted_primitive v :
      is_primitive v = true -> sorted_copy v v
  | sorted_array items items' :
      Forall2 sorted_copy items items' ->
      sorted_copy (JArray items) (JArray items')
  | sorted_object props props' :
      Sorted key_lt (keys props') ->
      keys props' ≡ₚ keys props ->
      (forall k w, own k props = Some w ->
         exists w', own k props' = Some w' /\ sorted_copy w w') ->
      sorted_copy (JObject props) (JObject props').
#[local] Set Elimination Schemes.

(** The characters that start a path segment, and the one that closes an
    index segment. *)
Definition is_separator (c : ascii) : bool := Ascii.eqb c "." || Ascii.eqb c "[".

Definition is_closing (c : ascii) : bool := Ascii.eqb c "]".

(** No character of [s] satisfies [stop]. *)
Definition free_of (stop : ascii -> bool) (s : string) : bool :=
  forallb (fun c => negb (stop c)) (list_ascii_of_string s).

(** A key that is not empty and holds neither ['.'] nor ['[']. *)
Definition addressable_key (k : string) : bool :=
  negb (is_empty k) && free_of is_separator k.

(** The rest of a path after a segment: nothing, or the start of the next
    segment. *)
Definition starts_with (stop : ascii -> bool) (t : string) : Prop :=
  match t with
  | EmptyString => True
  | String c _ => stop c = true
  end.

(** [x] is the path [p] or continues it with further segments. *)
Definition under (p x : string) : Prop :=
  exists t, x = p +:+ t /\ starts_with is_separator t.

(** The path of the child at key [k], resp. at index [i], of the node at
    path [p], as the diff and the tree view build it. *)
Definition key_path (p k : string) : string :=
  if is_empty p then k else p +:+ "." +:+ k.

Definition index_path (p : string) (i : nat) : string :=
  p +:+ "[" +:+ nat_to_string i +:+ "]".

(** A key other than ["__proto__"]. *)
Definition not_proto (k : string) : bool := negb (String.eqb k "__proto__").

(** The value and the indentation that [formattedJson] hands to
    [JSON.stringify]. *)
Definition serialised (v : Value) (indentSize : nat) (sortKeys compactMode : bool) :
    Value * nat :=
  if compactMode then (v, 0)
  else if sortKeys then (JsonTools.sortObjectKeys v, indentSize)
  else (v, indentSize).

(** The record of the opposite comparison: [added] and [removed] exchanged,
    the two values exchanged. *)
Definition mirror (r : JsonTools.JsonDiffResult) : JsonTools.JsonDiffResult :=
  {| JsonTools.path := JsonTools.path r;
     JsonTools.type :=
       match JsonTools.type r with
       | JsonTools.added => JsonTools.removed
       | JsonTools.removed => JsonTools.added
       | t => t
       end;
     JsonTools.leftValue := JsonTools.rightValue r;
     JsonTools.rightValue := JsonTools.leftValue r |}.

(** The diff reports a record of kind [t] at path [p] with these values. *)
Definition reports (rs : list JsonTools.JsonDiffResult) (t : JsonTools.DiffType)
    (p : string) (before after : option Value) : Prop :=
  {| JsonTools.path := p; JsonTools.type := t;
     JsonTools.leftValue := before; JsonTools.rightValue := after |} ∈ rs.

(** The rows hold exactly one row for the root node [v]: the first row, at
    level 0 and at the empty path; every other row lies deeper. *)
Definition one_root_row (rows : list JsonViewer.JsonNode) (v : Value) : Prop :=
  exists root rest,
    rows = root :: rest
    /\ JsonViewer.value root = v
    /\ JsonViewer.path root = EmptyString
    /\ JsonViewer.level root = 0
    /\ Forall (fun n => 1 <= JsonViewer.level n) rest.

(** The immediate children of a node, in document order. *)
Definition children (v : Value) : list Value :=
  match v with
  | JArray items => items
  | JObject props => map snd props
  | _ => []
  end.

(** No key of the root object is the empty string. *)
Definition root_keys_not_empty (v : Value) : bool :=
  match v with
  | JObject props => forallb (fun k => negb (is_empty k)) (keys props)
  | _ => true
  end.

(** Empty or white space only. *)
Definition blank (text : string) : bool :=
  forallb is_space (list_ascii_of_string text).

(** All the nodes of a value, containers and leaves, each before the nodes
    below it, in document order. *)
Fixpoint subvalues (v : Value) : list Value :=
  v ::
  match v with
  | JArray items => flat_map subvalues items
  | JObject props => flat_map (fun kv => let '(_, w) := kv in subvalues w) props
  | _ => []
  end.

(** The type tag of a value. *)
Definition kind_of (v : Value) : JsonViewer.NodeType :=
  match v with
  | JNull => JsonViewer.t_null
  | JBool _ => JsonViewer.t_boolean
  | JNumber _ => JsonViewer.t_number
  | JString _ => JsonViewer.t_string
  | JArray _ => JsonViewer.t_array
  | JObject _ => JsonViewer.t_object
  end.

(** What a row shows of the node it stands for, given the expanded paths. *)
Definition row_consistent (E : gset string) (n : JsonViewer.JsonNode) : Prop :=
  JsonViewer.type n = kind_of (JsonViewer.value n)
  /\ JsonViewer.hasChildren n = (0 <? length (children (JsonViewer.value n)))
  /\ JsonViewer.isExpanded n
     = negb (is_primitive (JsonViewer.value n))
       && bool_decide (JsonViewer.path n ∈ E)
  /\ JsonViewer.isVisible n = true.

(** The two values of a record are present or absent as its kind says. *)
Definition record_shape (r : JsonTools.JsonDiffResult) : Prop :=
  match JsonTools.type r with
  | JsonTools.added => JsonTools.leftValue r = None /\ is_Some (JsonTools.rightValue r)
  | JsonTools.removed => is_Some (JsonTools.leftValue r) /\ JsonTools.rightValue r = None
  | _ => is_Some (JsonTools.leftValue r) /\ is_Some (JsonTools.rightValue r)
  end.

(** The kind of a record that carries two values agrees with their deep
    equality. *)
Definition record_verdict (r : JsonTools.JsonDiffResult) : Prop :=
  match JsonTools.type r, JsonTools.leftValue r, JsonTools.rightValue r with
  | JsonTools.unchanged, Some x, Some y => isEqual x y = true
  | JsonTools.changed, Some x, Some y => isEqual x y = false
  | _, _, _ => True
  end.

(** What a row shows of itself, whatever its expansion. *)
Definition row_content (n : JsonViewer.JsonNode) : string * Value * nat :=
  (JsonViewer.path n, JsonViewer.value n, JsonViewer.level n).

(** No character of [s] is a dot. *)
Definition is_dot (c : ascii) : bool := Ascii.eqb c ".".

End Spec.

(** ** Documents of the scenarios *)

Module Examples.
Import Js.

Definition q (s : string) : string := RefJSON.quote s.

(** [{"a":1,"b":{"c":2}}] *)
Definition scenario_left : string :=
  "{" +:+ q "a" +:+ ":1," +:+ q "b" +:+ ":{" +:+ q "c" +:+ ":2}}".

(** [{"a":1,"b":{"c":3,"d":4}}] *)
Definition scenario_right : string :=
  "{" +:+ q "a" +:+ ":1," +:+ q "b" +:+ ":{" +:+ q "c" +:+ ":3," +:+ q "d" +:+ ":4}}".

Definition record (p : string) (t : JsonTools.DiffType) (l r : option Value) :
    JsonTools.JsonDiffResult :=
  {| JsonTools.path := p; JsonTools.type := t;
     JsonTools.leftValue := l; JsonTools.rightValue := r |}.

(** The list the scenario of the specification gives. *)
Definition scenario_claimed : list JsonTools.JsonDiffResult :=
  [ record "b.c" JsonTools.changed (Some (JNumber 2)) (Some (JNumber 3));
    record "b.d" JsonTools.added None (Some (JNumber 4));
    record "a" JsonTools.unchanged (Some (JNumber 1)) (Some (JNumber 1)) ].

(** The same records in the order of the keys of the left document. *)
Definition scenario_computed : list JsonTools.JsonDiffResult :=
  [ record "a" JsonTools.unchanged (Some (JNumber 1)) (Some (JNumber 1));
    record "b.c" JsonTools.changed (Some (JNumber 2)) (Some (JNumber 3));
    record "b.d" JsonTools.added None (Some (JNumber 4)) ].

(** [{"a":[1,null,{}],"b":"x"}] *)
Definition nested : Value :=
  JObject [("a", JArray [JNumber 1; JNull; JObject []]); ("b", JString "x")].

(** [{"a":{"b":1}}] *)
Definition one_nested : string :=
  "{" +:+ q "a" +:+ ":{" +:+ q "b" +:+ ":1}}".

(** [{"":[1]}] *)
Definition empty_key : string := "{" +:+ q "" +:+ ":[1]}".

(** The view after [{"a":{"b":1}}] was typed and its node [a] expanded. *)
Definition a_expanded : JsonViewer.State :=
  JsonViewer.toggleExpanded "a"
    (JsonViewer.onChange RefJSON.JSON_parse one_nested JsonViewer.initial).

(** [{"b":1,"a":2}] and its sorted form [{"a":2,"b":1}] *)
Definition unsorted : string := "{" +:+ q "b" +:+ ":1," +:+ q "a" +:+ ":2}".

Definition unsorted_sorted : Value := JObject [("a", JNumber 2); ("b", JNumber 1)].

(** [[{"b":[2,1],"a":{"d":null,"c":true}}]] *)
Definition unsorted_nested : string :=
  "[{" +:+ q "b" +:+ ":[2,1]," +:+ q "a" +:+ ":{" +:+ q "d" +:+ ":null,"
  +:+ q "c" +:+ ":true}}]".

Definition unsorted_nested_value : Value :=
  JArray [JObject [("b", JArray [JNumber 2; JNumber 1]);
                   ("a", JObject [("d", JNull); ("c", JBool true)])]].

(** [{"__proto__":1}] *)
Definition proto_key : string := "{" +:+ q "__proto__" +:+ ":1}".

(** [{"10":1,"9":2}] *)
Definition index_keys : string := "{" +:+ q "10" +:+ ":1," +:+ q "9" +:+ ":2}".

(** The value [{"10":1,"9":2}] parses to: the key [9] comes first. *)
Definition index_keys_value : Value := JObject [("9", JNumber 2); ("10", JNumber 1)].

(** [{"a.b":1,"a":{"b":2}}] *)
Definition dotted_key : Value :=
  JObject [("a.b", JNumber 1); ("a", JObject [("b", JNumber 2)])].

(** [{"a[0]":1,"a":[2]}] *)
Definition bracket_key : Value :=
  JObject [("a[0]", JNumber 1); ("a", JArray [JNumber 2])].

(** [{"":1}] *)
Definition empty_key_leaf : Value := JObject [("", JNumber 1)].

End Examples.

(** * Properties *)

Import Js.

(** ** The scenario of the diff *)

Lemma scenario_documents_parse :
  RefJSON.JSON_parse Examples.scenario_left
  = Some (JObject [("a", JNumber 1); ("b", JObject [("c", JNumber 2)])])
  /\ RefJSON.JSON_parse Examples.scenario_right
     = Some (JObject [("a", JNumber 1);
                      ("b", JObject [("c", JNumber 3); ("d", JNumber 4)])]).
Proof. split; vm_compute; reflexivity. Qed.

(** C2, as stated: the records do not come in the order [b.c], [b.d], [a]. *)
Lemma scenario_order_refuted :
  JsonTools.diffResult RefJSON.JSON_parse Examples.scenario_left Examples.scenario_right
  <> Examples.scenario_claimed.
Proof. vm_compute. discriminate. Qed.

(** C2, amended: the diff of [{"a":1,"b":{"c":2}}] and
    [{"a":1,"b":{"c":3,"d":4}}] is exactly three records, in the order of the
    keys of the left document: [a] unchanged (1, 1), then [b.c] changed from 2
    to 3, then [b.d] added with 4. *)
Theorem scenario_diff :
  JsonTools.diffResult RefJSON.JSON_parse Examples.scenario_left Examples.scenario_right
  = Examples.scenario_computed.
Proof. vm_compute. reflexivity. Qed.

(** ** The host functions *)

Section HostLemmas.

Lemma own_with_fmap {A} (f : Value -> A) key props :
  own_with f key props = f <$> own key props.
Proof.
  induction props as [|[k v] rest IH]; simpl; [done|].
  destruct (String.eqb k key); [done|]. exact IH.
Qed.

Lemma at_index_lookup (items : list Value) i : at_index items i = items !! i.
Proof.
  revert i; induction items as [|x rest IH]; intros [|i]; simpl; try done; apply IH.
Qed.

Lemma at_with_fmap {A} (f : Value -> A) (items : list Value) i :
  at_with f items i = f <$> items !! i.
Proof.
  revert i; induction items as [|x rest IH]; intros [|i]; simpl; try done; apply IH.
Qed.

Lemma includes_elem_of ks key : includes ks key = true <-> key ∈ ks.
Proof.
  unfold includes. rewrite existsb_exists. split.
  - intros (x & Hx & Heq). apply String.eqb_eq in Heq. subst.
    by apply list_elem_of_In.
  - intros H. exists key. split; [by apply list_elem_of_In | apply String.eqb_refl].
Qed.

Lemma includes_false ks key : includes ks key = false <-> key ∉ ks.
Proof.
  rewrite <- includes_elem_of. destruct (includes ks key); naive_solver.
Qed.

Lemma own_Some_elem key props v : own key props = Some v -> (key, v) ∈ props.
Proof.
  unfold own. induction props as [|[k w] rest IH]; simpl; [done|].
  destruct (String.eqb_spec k key) as [->|Hne].
  - intros [= ->]. left.
  - intros H. right. by apply IH.
Qed.

Lemma own_None key props : own key props = None <-> key ∉ keys props.
Proof.
  unfold own, keys. induction props as [|[k w] rest IH]; simpl.
  - split; [intros _; apply not_elem_of_nil | done].
  - rewrite not_elem_of_cons. destruct (String.eqb_spec k key) as [->|Hne].
    + split; [done | intros [? _]; done].
    + rewrite IH. naive_solver.
Qed.

Lemma own_is_Some key props : is_Some (own key props) <-> key ∈ keys props.
Proof.
  rewrite <- not_eq_None_Some, own_None.
  destruct (decide (key ∈ keys props)); naive_solver.
Qed.

Lemma own_head key v rest : own key ((key, v) :: rest) = Some v.
Proof. unfold own; simpl. by rewrite String.eqb_refl. Qed.

Lemma own_tail key k v rest : k <> key -> own key ((k, v) :: rest) = own key rest.
Proof.
  intros Hne. unfold own; simpl.
  by destruct (String.eqb_spec k key).
Qed.

Lemma own_unique key props v :
  NoDup (keys props) -> (key, v) ∈ props -> own key props = Some v.
Proof.
  induction props as [|[k w] rest IH]; intros Hnd Hin.
  - by apply elem_of_nil in Hin.
  - simpl in Hnd. apply NoDup_cons in Hnd as [Hk Hnd].
    apply elem_of_cons in Hin as [[= <- <-]|Hin]; [apply own_head|].
    rewrite own_tail; [by apply IH|].
    intros ->. apply Hk. unfold keys.
    apply list_elem_of_fmap. by exists (key, v).
Qed.

(** [new Set] keeps each element once, in the order of first insertion. *)
Lemma set_add_elem_of s x y : y ∈ set_add s x <-> y ∈ s \/ y = x.
Proof.
  unfold set_add. destruct (includes s x) eqn:E.
  - apply includes_elem_of in E. naive_solver.
  - rewrite elem_of_app, list_elem_of_singleton. done.
Qed.

Lemma set_add_NoDup s x : NoDup s -> NoDup (set_add s x).
Proof.
  intros Hnd. unfold set_add. destruct (includes s x) eqn:E; [done|].
  apply includes_false in E.
  apply NoDup_app. split_and!; [done| |apply NoDup_singleton].
  intros y Hy ->%list_elem_of_singleton. done.
Qed.

Lemma fold_set_add_elem_of l s y :
  y ∈ fold_left set_add l s <-> y ∈ s \/ y ∈ l.
Proof.
  revert s; induction l as [|x l IH]; intros s; simpl.
  - rewrite elem_of_nil. naive_solver.
  - rewrite IH, set_add_elem_of, elem_of_cons. naive_solver.
Qed.

Lemma fold_set_add_NoDup l s : NoDup s -> NoDup (fold_left set_add l s).
Proof.
  revert s; induction l as [|x l IH]; intros s Hs; simpl; [done|].
  apply IH. by apply set_add_NoDup.
Qed.

Lemma new_Set_elem_of l y : y ∈ new_Set l <-> y ∈ l.
Proof.
  unfold new_Set. rewrite fold_set_add_elem_of, elem_of_nil. naive_solver.
Qed.

Lemma new_Set_NoDup l : NoDup (new_Set l).
Proof. apply fold_set_add_NoDup, NoDup_nil_2. Qed.

Lemma fold_set_add_known l s :
  (forall x, x ∈ l -> x ∈ s) -> fold_left set_add l s = s.
Proof.
  revert s; induction l as [|x l IH]; intros s Hs; simpl; [done|].
  assert (set_add s x = s) as ->.
  { unfold set_add. assert (includes s x = true) as ->; [|done].
    apply includes_elem_of, Hs. left. }
  apply IH. intros y Hy. apply Hs. by right.
Qed.

Lemma fold_set_add_fresh l s :
  NoDup (s ++ l) -> fold_left set_add l s = s ++ l.
Proof.
  revert s; induction l as [|x l IH]; intros s Hnd; simpl.
  - by rewrite app_nil_r.
  - assert (set_add s x = s ++ [x]) as ->.
    { unfold set_add. assert (includes s x = false) as ->; [|done].
      apply includes_false. apply NoDup_app in Hnd as (_ & Hd & _).
      intros Hx. apply (Hd x Hx). left. }
    rewrite IH; [by rewrite <- app_assoc|]. by rewrite <- app_assoc.
Qed.

Lemma filter_ext_elem (P Q : string -> Prop)
    `{!forall x, Decision (P x)} `{!forall x, Decision (Q x)} (l : list string) :
  (forall x, x ∈ l -> P x <-> Q x) -> filter P l = filter Q l.
Proof.
  induction l as [|x l IH]; intros Hext; [done|].
  rewrite !filter_cons. rewrite IH by (intros y Hy; apply Hext; by right).
  assert (P x <-> Q x) as Hx by (apply Hext; left).
  destruct (decide (P x)), (decide (Q x)); tauto || done.
Qed.

(** The union of two key lists: the left keys in their order, then the keys
    that only the right has, in their order. *)
Lemma fold_set_add_union l s :
  NoDup l ->
  fold_left set_add l s = s ++ filter (fun x => x ∉ s) l.
Proof.
  revert s; induction l as [|x l IH]; intros s Hnd; simpl.
  - by rewrite app_nil_r.
  - apply NoDup_cons in Hnd as [Hx Hnd]. rewrite IH by done.
    rewrite filter_cons. unfold set_add.
    destruct (includes s x) eqn:E.
    + apply includes_elem_of in E. by rewrite decide_False by tauto.
    + apply includes_false in E. rewrite decide_True by done.
      rewrite <- app_assoc. simpl. do 2 f_equal.
      apply filter_ext_elem. intros y Hy.
      rewrite elem_of_app, list_elem_of_singleton.
      split; [tauto|]. intros Hys [?| ->]; done.
Qed.

Lemma new_Set_union l1 l2 :
  NoDup l1 -> NoDup l2 ->
  new_Set (l1 ++ l2) = l1 ++ filter (fun x => x ∉ l1) l2.
Proof.
  intros H1 H2. unfold new_Set. rewrite fold_left_app.
  rewrite (fold_set_add_fresh l1 []) by done. simpl.
  by apply fold_set_add_union.
Qed.

(** The keys of an object united with themselves are its keys. *)
Lemma new_Set_twice l : NoDup l -> new_Set (l ++ l) = l.
Proof.
  intros Hnd. unfold new_Set. rewrite fold_left_app.
  rewrite (fold_set_add_fresh l []); [|done]. simpl.
  by apply fold_set_add_known.
Qed.

End HostLemmas.

(** ** The structural diff *)

Import JsonTools.

Lemma flat_map_elem_of {A B} (f : A -> list B) (l : list A) (y : B) :
  y ∈ flat_map f l <-> exists x, x ∈ l /\ y ∈ f x.
Proof.
  rewrite list_elem_of_In, in_flat_map.
  by setoid_rewrite list_elem_of_In.
Qed.

Lemma flat_map_ext_elem {A B} (f g : A -> list B) (l : list A) :
  (forall x, x ∈ l -> f x = g x) -> flat_map f l = flat_map g l.
Proof.
  intros H. induction l as [|x l IH]; simpl; [done|].
  rewrite H; [|left]. f_equal. apply IH. intros y Hy. apply H. by right.
Qed.

(** What the loop over the indices of two arrays emits at index [i]. *)
Lemma diff_arrays (la ra : list Value) (path : string) :
  generateSmartJsonDiff (JArray la) (JArray ra) path
  = flat_map
      (fun i =>
         let p := path +:+ "[" +:+ nat_to_string i +:+ "]" in
         match la !! i, ra !! i with
         | Some x, Some y => generateSmartJsonDiff x y p
         | Some x, None =>
             [ {| path := p; type := removed; leftValue := Some x; rightValue := None |} ]
         | None, y =>
             [ {| path := p; type := added; leftValue := None; rightValue := y |} ]
         end)
      (seq 0 (Nat.max (length la) (length ra))).
Proof.
  cbn [generateSmartJsonDiff is_primitive isArray orb negb Bool.eqb].
  apply flat_map_ext_elem. intros i _. cbv zeta.
  rewrite !at_index_lookup.
  destruct (Nat.leb_spec (length la) i) as [Hl|Hl].
  - by rewrite (lookup_ge_None_2 la i Hl).
  - destruct (lookup_lt_is_Some_2 la i Hl) as [x Hx]. rewrite Hx.
    destruct (Nat.leb_spec (length ra) i) as [Hr|Hr].
    + by rewrite (lookup_ge_None_2 ra i Hr).
    + destruct (lookup_lt_is_Some_2 ra i Hr) as [y Hy]. rewrite Hy.
      by rewrite at_with_fmap, Hx.
Qed.

(** What the loop over the united keys of two objects emits at key [k]. *)
Lemma diff_objects (lp rp : list (string * Value)) (path : string) :
  generateSmartJsonDiff (JObject lp) (JObject rp) path
  = flat_map
      (fun k =>
         let p := if is_empty path then k else path +:+ "." +:+ k in
         match own k lp, own k rp with
         | Some x, Some y => generateSmartJsonDiff x y p
         | Some x, None =>
             [ {| path := p; type := removed; leftValue := Some x; rightValue := None |} ]
         | None, Some y =>
             [ {| path := p; type := added; leftValue := None; rightValue := Some y |} ]
         | None, None => []
         end)
      (new_Set (keys lp ++ keys rp)).
Proof.
  cbn [generateSmartJsonDiff is_primitive isArray orb negb Bool.eqb].
  apply flat_map_ext_elem. intros k _. cbv zeta.
  destruct (own k lp) as [x|] eqn:Hl; destruct (own k rp) as [y|] eqn:Hr.
  - assert (includes (keys lp) k = true) as ->
      by (apply includes_elem_of, own_is_Some; eauto).
    assert (includes (keys rp) k = true) as ->
      by (apply includes_elem_of, own_is_Some; eauto).
    by rewrite own_with_fmap, Hl.
  - assert (includes (keys lp) k = true) as ->
      by (apply includes_elem_of, own_is_Some; eauto).
    assert (includes (keys rp) k = false) as ->
      by (by apply includes_false, own_None).
    done.
  - assert (includes (keys lp) k = false) as ->
      by (by apply includes_false, own_None).
    assert (includes (keys rp) k = true) as ->
      by (apply includes_elem_of, own_is_Some; eauto).
    done.
  - assert (includes (keys lp) k = false) as ->
      by (by apply includes_false, own_None).
    assert (includes (keys rp) k = false) as ->
      by (by apply includes_false, own_None).
    done.
Qed.

(** A primitive on either side: one record, [changed] or [unchanged]. *)
Lemma diff_primitive (a b : Value) (path : string) :
  is_primitive a || is_primitive b = true ->
  generateSmartJsonDiff a b path
  = [ {| path := or_root path;
         type := if isEqual a b then unchanged else changed;
         leftValue := Some a; rightValue := Some b |} ].
Proof.
  intros H.
  assert (generateSmartJsonDiff a b path
          = if negb (isEqual a b)
            then [ {| path := or_root path; type := changed;
                      leftValue := Some a; rightValue := Some b |} ]
            else [ {| path := or_root path; type := unchanged;
                      leftValue := Some a; rightValue := Some b |} ]) as ->.
  { destruct a; cbn [generateSmartJsonDiff is_primitive orb]; try reflexivity;
      cbn [is_primitive orb] in H; rewrite H; reflexivity. }
  by destruct (isEqual a b).
Qed.

(** An array against an object: one [changed] record. *)
Lemma diff_kind_mismatch (a b : Value) (path : string) :
  is_primitive a = false -> is_primitive b = false -> isArray a <> isArray b ->
  generateSmartJsonDiff a b path
  = [ {| path := or_root path; type := changed;
         leftValue := Some a; rightValue := Some b |} ].
Proof.
  intros Ha Hb Hk. destruct a, b; simpl in *; done.
Qed.

(** C1: the diff of two arrays is the concatenation of one piece per index
    [0 .. max(len left, len right) - 1], in increasing order; at path
    [path[i]] the piece is one [added] record carrying [right[i]] when
    [i >= len left], one [removed] record carrying [left[i]] when
    [i >= len right], and the diff of [left[i]] and [right[i]] otherwise.
    The diff of two objects is the concatenation of one piece per key of the
    union of the two key sets, each key visited once; at the path extended
    by the key (written [k] below the root and [path.k] elsewhere) the piece
    is the diff of the two values when both sides have the key, one
    [removed] record when only the left has it, one [added] record when only
    the right has it. *)
Theorem diff_of_containers :
  (forall (la ra : list Value) (path : string),
     exists pieces : list (list JsonDiffResult),
       generateSmartJsonDiff (JArray la) (JArray ra) path = concat pieces
       /\ Forall2
            (fun i piece =>
               let p := path +:+ "[" +:+ nat_to_string i +:+ "]" in
               if decide (length la <= i) then
                 exists y, ra !! i = Some y
                   /\ piece = [ {| path := p; type := added;
                                   leftValue := None; rightValue := Some y |} ]
               else if decide (length ra <= i) then
                 exists x, la !! i = Some x
                   /\ piece = [ {| path := p; type := removed;
                                   leftValue := Some x; rightValue := None |} ]
               else
                 exists x y, la !! i = Some x /\ ra !! i = Some y
                   /\ piece = generateSmartJsonDiff x y p)
            (seq 0 (Nat.max (length la) (length ra))) pieces)
  /\ (forall (lp rp : list (string * Value)) (path : string),
     exists (visited : list string) (pieces : list (list JsonDiffResult)),
       generateSmartJsonDiff (JObject lp) (JObject rp) path = concat pieces
       /\ NoDup visited
       /\ (forall k, k ∈ visited <-> k ∈ keys lp \/ k ∈ keys rp)
       /\ Forall2
            (fun k piece =>
               let p := if is_empty path then k else path +:+ "." +:+ k in
               if decide (k ∈ keys lp) then
                 if decide (k ∈ keys rp) then
                   exists x y, own k lp = Some x /\ own k rp = Some y
                     /\ piece = generateSmartJsonDiff x y p
                 else
                   exists x, own k lp = Some x
                     /\ piece = [ {| path := p; type := removed;
                                     leftValue := Some x; rightValue := None |} ]
               else
                 exists y, own k rp = Some y
                   /\ piece = [ {| path := p; type := added;
                                   leftValue := None; rightValue := Some y |} ])
            visited pieces).
Proof.
  split.
  - intros la ra path. eexists. split.
    { rewrite diff_arrays. apply flat_map_concat_map. }
    apply Forall2_fmap_r, Forall_Forall2_diag, Forall_forall.
    intros i Hi. apply elem_of_seq in Hi as [_ Hi]. simpl in Hi. cbv zeta. simpl.
    destruct (decide (length la <= i)) as [Hl|Hl].
    + rewrite (lookup_ge_None_2 la i Hl).
      destruct (lookup_lt_is_Some_2 ra i) as [y Hy]; [lia|]. rewrite Hy. eauto.
    + destruct (lookup_lt_is_Some_2 la i) as [x Hx]; [lia|]. rewrite Hx.
      destruct (decide (length ra <= i)) as [Hr|Hr].
      * rewrite (lookup_ge_None_2 ra i Hr). eauto.
      * destruct (lookup_lt_is_Some_2 ra i) as [y Hy]; [lia|]. rewrite Hy. eauto.
  - intros lp rp path. exists (new_Set (keys lp ++ keys rp)). eexists. split.
    { rewrite diff_objects. apply flat_map_concat_map. }
    split; [apply new_Set_NoDup|]. split.
    { intros k. by rewrite new_Set_elem_of, elem_of_app. }
    apply Forall2_fmap_r, Forall_Forall2_diag, Forall_forall.
    intros k Hk. apply new_Set_elem_of, elem_of_app in Hk. cbv zeta. simpl.
    destruct (decide (k ∈ keys lp)) as [Hl|Hl];
      destruct (decide (k ∈ keys rp)) as [Hr|Hr].
    + apply own_is_Some in Hl as [x Hx]. apply own_is_Some in Hr as [y Hy].
      rewrite Hx, Hy. eauto.
    + apply own_is_Some in Hl as [x Hx]. apply own_None in Hr.
      rewrite Hx, Hr. eauto.
    + apply own_None in Hl. apply own_is_Some in Hr as [y Hy].
      rewrite Hl, Hy. eauto.
    + tauto.
Qed.

(** ** Well-formed values and loops over indices and keys *)

Import Spec.

Lemma well_formed_array items :
  well_formed (JArray items) = true <-> Forall (fun x => well_formed x = true) items.
Proof. simpl. by rewrite forallb_forall, Forall_forall; setoid_rewrite list_elem_of_In. Qed.

Lemma well_formed_object props :
  well_formed (JObject props) = true
  <-> NoDup (keys props) /\ Forall (fun kv => well_formed kv.2 = true) props.
Proof.
  simpl. rewrite andb_true_iff, bool_decide_eq_true, forallb_forall, Forall_forall.
  setoid_rewrite list_elem_of_In.
  split; intros [Hnd H]; (split; [done|]); intros [k w] Hkw; apply (H (k, w) Hkw).
Qed.

Lemma all_keys_array ok items :
  all_keys ok (JArray items) = true <-> Forall (fun x => all_keys ok x = true) items.
Proof. simpl. by rewrite forallb_forall, Forall_forall; setoid_rewrite list_elem_of_In. Qed.

Lemma all_keys_object ok props :
  all_keys ok (JObject props) = true
  <-> Forall (fun kv => ok kv.1 = true /\ all_keys ok kv.2 = true) props.
Proof.
  simpl. rewrite forallb_forall, Forall_forall.
  setoid_rewrite list_elem_of_In.
  split; intros H [k w] Hkw; specialize (H (k, w) Hkw); simpl in *;
    by apply andb_true_iff.
Qed.

Lemma map_flat_map {A B C} (f : B -> C) (h : A -> list B) (l : list A) :
  map f (flat_map h l) = flat_map (fun x => map f (h x)) l.
Proof.
  induction l as [|x l IH]; simpl; [done|]. by rewrite map_app, IH.
Qed.

(** A loop over the indices of an array, read as a loop over its items. *)
Lemma flat_map_indices {A B} (l : list A) (h : nat -> list B) (g : A -> list B) (s : nat) :
  (forall i x, l !! i = Some x -> h (s + i) = g x) ->
  flat_map h (seq s (length l)) = flat_map g l.
Proof.
  revert s; induction l as [|x l IH]; intros s H; simpl; [done|].
  rewrite <- (H 0 x eq_refl), Nat.add_0_r. f_equal.
  apply IH. intros i y Hy. rewrite <- (H (S i) y Hy). f_equal. lia.
Qed.

(** A loop over the keys of an object, read as a loop over its properties. *)
Lemma flat_map_keys {B} (props : list (string * Value)) (h : string -> list B)
    (g : string * Value -> list B) :
  (forall k v, (k, v) ∈ props -> h k = g (k, v)) ->
  flat_map h (keys props) = flat_map g props.
Proof.
  induction props as [|[k v] rest IH]; intros H; simpl; [done|].
  rewrite (H k v); [|left]. f_equal. apply IH.
  intros k' v' Hin. apply H. by right.
Qed.

Lemma isEqual_primitive_refl v : is_primitive v = true -> isEqual v v = true.
Proof.
  destruct v; simpl; try done; intros _.
  - by destruct b.
  - apply Z.eqb_refl.
  - apply String.eqb_refl.
Qed.

(** The diff of a well-formed value with itself: one [unchanged] record per
    leaf, in document order, carrying the leaf on both sides. *)
Lemma diff_self_records v :
  forall path, well_formed v = true ->
  map (fun r => (type r, leftValue r, rightValue r)) (generateSmartJsonDiff v v path)
  = map (fun x => (unchanged, Some x, Some x)) (leaves v).
Proof.
  induction v as [| b | n | s | items IH | props IH] using Value_ind;
    intros path Hwf;
    try (rewrite diff_primitive by done; rewrite isEqual_primitive_refl by done; done).
  - rewrite diff_arrays, Nat.max_id. cbn [leaves].
    rewrite !map_flat_map. apply flat_map_indices.
    intros i x Hx. simpl. rewrite Hx.
    apply well_formed_array in Hwf.
    rewrite Forall_forall in IH, Hwf.
    apply IH, Hwf; by eapply list_elem_of_lookup_2.
  - apply well_formed_object in Hwf as [Hnd Hwf].
    rewrite diff_objects, (new_Set_twice _ Hnd). cbn [leaves].
    rewrite !map_flat_map. apply flat_map_keys.
    intros k v Hin. rewrite (own_unique k props v Hnd Hin).
    rewrite Forall_forall in IH, Hwf.
    apply (IH (k, v) Hin), (Hwf (k, v) Hin).
Qed.

(** C6: for a parsed value [v], [diff(v, v)] holds [unchanged] records only,
    one per non-container node of [v] and in the order of these nodes, each
    with the node as its value on both sides; containers are traversed and
    get no record. *)
Theorem diff_reflexive (v : Value) (path : string) :
  well_formed v = true ->
  Forall (fun r => type r = unchanged) (generateSmartJsonDiff v v path)
  /\ length (generateSmartJsonDiff v v path) = length (leaves v)
  /\ map leftValue (generateSmartJsonDiff v v path) = map Some (leaves v)
  /\ map rightValue (generateSmartJsonDiff v v path) = map Some (leaves v).
Proof.
  intros Hwf. pose proof (diff_self_records v path Hwf) as H.
  split_and!.
  - apply Forall_forall. intros r Hr.
    assert ((type r, leftValue r, rightValue r)
            ∈ map (fun x => (unchanged, Some x, Some x)) (leaves v)) as Hin.
    { rewrite <- H. apply (list_elem_of_fmap_2 (fun r => (type r, leftValue r, rightValue r))), Hr. }
    apply list_elem_of_fmap in Hin as (x & [= -> _ _] & _). done.
  - apply (f_equal length) in H. by rewrite !length_map in H.
  - apply (f_equal (map (fun t => t.1.2))) in H.
    rewrite !map_map in H. exact H.
  - apply (f_equal (map (fun t => t.2))) in H.
    rewrite !map_map in H. exact H.
Qed.

Lemma diff_reflexive_witness :
  well_formed Examples.nested = true
  /\ Forall (fun r => type r = unchanged)
       (generateSmartJsonDiff Examples.nested Examples.nested "")
  /\ length (generateSmartJsonDiff Examples.nested Examples.nested "")
     = length (leaves Examples.nested).
Proof.
  split; [reflexivity|].
  destruct (diff_reflexive Examples.nested "" eq_refl) as (H1 & H2 & _).
  exact (conj H1 H2).
Defined.

(** ** Symmetry of the classification *)

Lemma mirror_involutive r : mirror (mirror r) = r.
Proof. by destruct r as [p [] l r]. Qed.

Lemma isEqual_sym_primitive a b :
  is_primitive a || is_primitive b = true -> isEqual a b = isEqual b a.
Proof.
  destruct a, b; simpl; try done; intros _.
  - by destruct b, b0.
  - apply Z.eqb_sym.
  - apply String.eqb_sym.
Qed.

Lemma diff_primitive_left a b path :
  is_primitive a = true ->
  generateSmartJsonDiff a b path
  = [ {| path := or_root path;
         type := if isEqual a b then unchanged else changed;
         leftValue := Some a; rightValue := Some b |} ].
Proof. intros H. apply diff_primitive. by rewrite H. Qed.

Lemma diff_primitive_right a b path :
  is_primitive b = true ->
  generateSmartJsonDiff a b path
  = [ {| path := or_root path;
         type := if isEqual a b then unchanged else changed;
         leftValue := Some a; rightValue := Some b |} ].
Proof. intros H. apply diff_primitive. by rewrite H, orb_true_r. Qed.

Lemma diff_mirror_primitive a b path r :
  is_primitive a || is_primitive b = true ->
  r ∈ generateSmartJsonDiff a b path -> mirror r ∈ generateSmartJsonDiff b a path.
Proof.
  intros H. rewrite (diff_primitive a b) by done.
  rewrite (diff_primitive b a) by (by rewrite orb_comm).
  intros ->%list_elem_of_singleton. apply list_elem_of_singleton.
  unfold mirror; simpl. rewrite (isEqual_sym_primitive b a) by (by rewrite orb_comm).
  by destruct (isEqual a b).
Qed.

Lemma diff_mirror_1 a :
  forall b path r,
    r ∈ generateSmartJsonDiff a b path -> mirror r ∈ generateSmartJsonDiff b a path.
Proof.
  induction a as [| x | n | s | la IH | lp IH] using Value_ind; intros b path r;
    try (by apply diff_mirror_primitive).
  - destruct b as [| x | n | s | ra | rp]; try (by apply diff_mirror_primitive).
    + rewrite !diff_arrays, !flat_map_elem_of.
      intros (i & Hi & Hr). exists i. split; [by rewrite Nat.max_comm|].
      cbv zeta in *.
      destruct (la !! i) as [x|] eqn:Hx, (ra !! i) as [y|] eqn:Hy.
      * rewrite Forall_forall in IH. apply IH; [|done].
        by eapply list_elem_of_lookup_2.
      * apply list_elem_of_singleton in Hr as ->. apply list_elem_of_singleton. reflexivity.
      * apply list_elem_of_singleton in Hr as ->. apply list_elem_of_singleton. reflexivity.
      * apply elem_of_seq in Hi. apply lookup_ge_None in Hx, Hy. lia.
    + rewrite !diff_kind_mismatch by done.
      intros ->%list_elem_of_singleton. apply list_elem_of_singleton. reflexivity.
  - destruct b as [| x | n | s | ra | rp]; try (by apply diff_mirror_primitive).
    + rewrite !diff_kind_mismatch by done.
      intros ->%list_elem_of_singleton. apply list_elem_of_singleton. reflexivity.
    + rewrite !diff_objects, !flat_map_elem_of.
      intros (k & Hk & Hr). exists k. split.
      { rewrite new_Set_elem_of, elem_of_app in *. tauto. }
      cbv zeta in *.
      destruct (own k lp) as [x|] eqn:Hx, (own k rp) as [y|] eqn:Hy.
      * rewrite Forall_forall in IH.
        apply (IH (k, x)); [by apply own_Some_elem | done].
      * apply list_elem_of_singleton in Hr as ->. apply list_elem_of_singleton. reflexivity.
      * apply list_elem_of_singleton in Hr as ->. apply list_elem_of_singleton. reflexivity.
      * by apply elem_of_nil in Hr.
Qed.

Lemma diff_mirror a b path r :
  r ∈ generateSmartJsonDiff a b path <-> mirror r ∈ generateSmartJsonDiff b a path.
Proof.
  split; [apply diff_mirror_1|].
  intros H. apply diff_mirror_1 in H. by rewrite mirror_involutive in H.
Qed.

(** C7: [diff(a, b)] reports [added] at path [p] with value [x] exactly when
    [diff(b, a)] reports [removed] at [p] with value [x], and reports
    [changed] at [p] from [u] to [w] exactly when [diff(b, a)] reports
    [changed] at [p] from [w] to [u]. *)
Theorem diff_symmetric (a b : Value) (path p : string) :
  (forall x,
     reports (generateSmartJsonDiff a b path) added p None (Some x)
     <-> reports (generateSmartJsonDiff b a path) removed p (Some x) None)
  /\ (forall u w,
        reports (generateSmartJsonDiff a b path) changed p (Some u) (Some w)
        <-> reports (generateSmartJsonDiff b a path) changed p (Some w) (Some u)).
Proof.
  unfold reports. split; intros; apply (diff_mirror a b path).
Qed.

(** ** Blank and malformed input *)

Lemma trimStart_blank text : blank text = true -> trimStart text = EmptyString.
Proof.
  unfold blank. induction text as [|c rest IH]; simpl; [done|].
  intros [Hc Hrest]%andb_true_iff. rewrite Hc. by apply IH.
Qed.

Lemma trimStart_not_blank text :
  blank text = false ->
  exists c rest, trimStart text = String c rest /\ is_space c = false.
Proof.
  unfold blank. induction text as [|c rest IH]; simpl; [done|].
  destruct (is_space c) eqn:Hc; simpl.
  - apply IH.
  - intros _. by exists c, rest.
Qed.

Lemma trimEnd_not_empty c rest :
  is_space c = false -> trimEnd (String c rest) <> EmptyString.
Proof.
  intros Hc. simpl. rewrite Hc. by destruct (trimEnd rest).
Qed.

(** [!text.trim()] holds exactly for the texts that are empty or white space
    only. *)
Lemma trim_is_empty text : is_empty (trim text) = blank text.
Proof.
  unfold trim, is_empty. destruct (blank text) eqn:Hb.
  - by rewrite trimStart_blank.
  - destruct (trimStart_not_blank text Hb) as (c & rest & -> & Hc).
    apply String.eqb_neq. by apply trimEnd_not_empty.
Qed.

(** C9: an empty or white-space-only text is no error: the validity check
    passes and the formatter gives the empty output.  A text that is not
    blank and that [JSON.parse] rejects fails the validity check, gives no
    formatted output and, on either side of the comparison, no diff
    record. *)
Theorem blank_and_malformed_input
    (JSON_parse : string -> option Value) (JSON_stringify : Value -> nat -> string)
    (text other : string) (indentSize : nat) (sortKeys compactMode : bool) :
  (blank text = true ->
     isValidJson JSON_parse text = true
     /\ formattedJson JSON_parse JSON_stringify text indentSize sortKeys compactMode
        = EmptyString)
  /\ (blank text = false -> JSON_parse text = None ->
        isValidJson JSON_parse text = false
        /\ formattedJson JSON_parse JSON_stringify text indentSize sortKeys compactMode
           = EmptyString
        /\ diffResult JSON_parse text other = []
        /\ diffResult JSON_parse other text = []).
Proof.
  unfold isValidJson, formattedJson, diffResult. rewrite !trim_is_empty.
  split.
  - by intros ->.
  - intros -> ->. split_and!; try done;
      destruct (blank other); try done; simpl; by destruct (JSON_parse other).
Qed.

Lemma blank_and_malformed_input_witness :
  (isValidJson RefJSON.JSON_parse "   " = true
   /\ formattedJson RefJSON.JSON_parse RefJSON.JSON_stringify "   " 2 false false
      = EmptyString)
  /\ (RefJSON.parse_text "{a:1}" = RefJSON.Syntax_error
      /\ isValidJson RefJSON.JSON_parse "{a:1}" = false
      /\ formattedJson RefJSON.JSON_parse RefJSON.JSON_stringify "{a:1}" 2 false false
         = EmptyString
      /\ diffResult RefJSON.JSON_parse "{a:1}" Examples.scenario_right = []
      /\ diffResult RefJSON.JSON_parse Examples.scenario_right "{a:1}" = []).
Proof.
  split.
  - refine (proj1 (blank_and_malformed_input RefJSON.JSON_parse RefJSON.JSON_stringify
                     "   " Examples.scenario_right 2 false false) _).
    reflexivity.
  - split; [vm_compute; reflexivity|].
    refine (proj2 (blank_and_malformed_input RefJSON.JSON_parse RefJSON.JSON_stringify
                     "{a:1}" Examples.scenario_right 2 false false) _ _).
    + reflexivity.
    + vm_compute; reflexivity.
Defined.

(** ** The tree view *)

Import JsonViewer.

Lemma forEach_Forall {A} (P : A -> Prop) (f : Value -> nat -> list A) items s :
  (forall x i, x ∈ items -> Forall P (f x i)) -> Forall P (forEach f items s).
Proof.
  revert s; induction items as [|x items IH]; intros s H; simpl; [done|].
  apply Forall_app. split; [apply H; left|].
  apply IH. intros y i Hy. apply H. by right.
Qed.

Lemma forEach_Forall2 {A} (R : Value -> A -> Prop) (f : Value -> nat -> list A) items s :
  (forall x i, x ∈ items -> exists row, f x i = [row] /\ R x row) ->
  Forall2 R items (forEach f items s).
Proof.
  revert s; induction items as [|x items IH]; intros s H; simpl; [done|].
  destruct (H x s) as (row & -> & Hrow); [left|]. simpl.
  constructor; [done|]. apply IH. intros y i Hy. apply H. by right.
Qed.

Lemma flat_map_Forall {A B} (P : B -> Prop) (h : A -> list B) (l : list A) :
  (forall x, x ∈ l -> Forall P (h x)) -> Forall P (flat_map h l).
Proof.
  intros H. apply Forall_forall. intros y (x & Hx & Hy)%flat_map_elem_of.
  specialize (H x Hx). rewrite Forall_forall in H. by apply H.
Qed.

Lemma flat_map_Forall2 {A B} (R : A -> B -> Prop) (g : A -> list B) (l : list A) :
  (forall x, x ∈ l -> exists row, g x = [row] /\ R x row) ->
  Forall2 R l (flat_map g l).
Proof.
  induction l as [|x l IH]; intros H; simpl; [done|].
  destruct (H x) as (row & -> & Hrow); [left|]. simpl.
  constructor; [done|]. apply IH. intros y Hy. apply H. by right.
Qed.

(** No row lies above the level the traversal started at. *)
Lemma rows_levels E v :
  forall p lvl, Forall (fun n => lvl <= level n) (parseJsonToNodes E v p lvl).
Proof.
  induction v as [| b | n | s | items IH | props IH] using Value_ind; intros p lvl;
    try (by repeat constructor).
  - simpl. constructor; [done|]. destruct (bool_decide _); [|done].
    apply forEach_Forall. intros x i Hx.
    rewrite Forall_forall in IH.
    eapply Forall_impl; [apply (IH x Hx _ (lvl + 1))|]. simpl. lia.
  - simpl. constructor; [done|]. destruct (bool_decide _); [|done].
    apply flat_map_Forall. intros k _. rewrite own_with_fmap.
    destruct (own k props) as [w|] eqn:Hw; [|done]. simpl.
    rewrite Forall_forall in IH.
    eapply Forall_impl; [apply (IH (k, w) (own_Some_elem _ _ _ Hw) _ (lvl + 1))|].
    simpl. lia.
Qed.

(** The first row is the row of the node itself; the others lie deeper. *)
Lemma rows_head E v p lvl :
  exists root rest,
    parseJsonToNodes E v p lvl = root :: rest
    /\ value root = v /\ path root = p /\ level root = lvl
    /\ Forall (fun n => S lvl <= level n) rest.
Proof.
  destruct v as [| b | n | s | items | props]; simpl;
    try (eexists _, []; by split_and!).
  - eexists _, _. split_and!; try done.
    destruct (bool_decide _); [|done].
    apply forEach_Forall. intros x i _.
    eapply Forall_impl; [apply rows_levels|]. simpl. lia.
  - eexists _, _. split_and!; try done.
    destruct (bool_decide _); [|done].
    apply flat_map_Forall. intros k _. rewrite own_with_fmap.
    destruct (own k props) as [w|]; [|done]. simpl.
    eapply Forall_impl; [apply rows_levels|]. simpl. lia.
Qed.

(** A node whose path is not expanded is one row, marked collapsed. *)
Lemma collapsed_row (E : gset string) v p lvl :
  p ∉ E ->
  exists row,
    parseJsonToNodes E v p lvl = [row]
    /\ value row = v /\ level row = lvl /\ isExpanded row = false.
Proof.
  intros Hp. destruct v as [| b | n | s | items | props]; simpl;
    try (eexists; by split_and!);
    rewrite (bool_decide_eq_false_2 _ Hp); eexists; by split_and!.
Qed.

(** The documents [null], [false], [0] and [""] are falsy: [nodes] returns
    no row for them, whereas [parseJsonToNodes] has a row for each. *)
Lemma nodes_of_falsy_documents (st : State) :
  parsedJson st ∈ [JNull; JBool false; JNumber 0; JString ""] ->
  nodes st = []
  /\ length (parseJsonToNodes (expandedPaths st) (parsedJson st) "" 0) = 1.
Proof.
  unfold nodes. rewrite !elem_of_cons, elem_of_nil.
  intros [->|[->|[->|[->|[]]]]]; done.
Qed.

(** C4, as stated: the document [null] parses, and the view has no row for
    it. *)
Lemma null_document_has_no_row :
  RefJSON.JSON_parse "null" = Some JNull
  /\ ~ one_root_row (nodes (onChange RefJSON.JSON_parse "null" initial)) JNull.
Proof.
  split; [vm_compute; reflexivity|].
  intros (root & rest & H & _). vm_compute in H. discriminate.
Qed.

(** C4, amended: [parseJsonToNodes] emits exactly one row for the root node
    of every value, [null], [false], [0] and [""] included, whatever the set
    of expanded paths: the first row, at level 0 and the empty path, every
    other row lying deeper.  The rows of the view, [nodes], are these rows
    for every parsed document that is truthy (an array, an object, [true],
    a number other than 0, a non-empty string).  The document [null] is the
    stored "no document" state and has no row in the view. *)
Theorem nodes_root_row (E : gset string) (v : Value) (st : State) :
  one_root_row (parseJsonToNodes E v "" 0) v
  /\ (truthy (parsedJson st) = true ->
      nodes st = parseJsonToNodes (expandedPaths st) (parsedJson st) "" 0
      /\ one_root_row (nodes st) (parsedJson st))
  /\ (parsedJson st = JNull -> nodes st = []).
Proof.
  assert (forall E v, one_root_row (parseJsonToNodes E v "" 0) v) as Hroot.
  { intros E' v'.
    destruct (rows_head E' v' "" 0) as (root & rest & H & Hv & Hp & Hl & Hrest).
    by exists root, rest. }
  unfold nodes. split_and!.
  - apply Hroot.
  - intros ->. simpl. split; [done|apply Hroot].
  - by intros ->.
Qed.

Lemma nodes_root_row_witness :
  one_root_row (nodes Examples.a_expanded) (parsedJson Examples.a_expanded)
  /\ one_root_row (parseJsonToNodes ∅ (JNumber 0) "" 0) (JNumber 0)
  /\ nodes initial = [].
Proof.
  split_and!.
  - refine (proj2 (proj1 (proj2 (nodes_root_row ∅ JNull Examples.a_expanded)) _)).
    reflexivity.
  - exact (proj1 (nodes_root_row ∅ (JNumber 0) initial)).
  - refine (proj2 (proj2 (nodes_root_row ∅ JNull initial)) _). reflexivity.
Defined.

(** ** The default expansion *)

Lemma not_elem_of_root (p : string) : p <> EmptyString -> p ∉ ({[ EmptyString ]} : gset string).
Proof. intros Hp Hin. apply elem_of_singleton in Hin. done. Qed.

(** A container shown with only the root expanded: the root row, then one
    collapsed row per child. *)
Lemma rows_of_default_view v :
  is_primitive v = false -> well_formed v = true -> root_keys_not_empty v = true ->
  exists root rest,
    parseJsonToNodes {[ EmptyString ]} v "" 0 = root :: rest
    /\ value root = v /\ level root = 0 /\ isExpanded root = true
    /\ Forall2 (fun child row => value row = child /\ level row = 1 /\ isExpanded row = false)
         (children v) rest.
Proof.
  intros Hc Hwf Hk. destruct v as [| | | | items | props]; try done.
  - eexists _, _. split; [reflexivity|]. split_and!; try done.
    rewrite bool_decide_eq_true_2 by (by apply elem_of_singleton).
    apply forEach_Forall2. intros x i _.
    destruct (collapsed_row {[ EmptyString ]} x
                (EmptyString +:+ "[" +:+ nat_to_string i +:+ "]") (0 + 1))
      as (row & Hrow & ?); [by apply not_elem_of_root|].
    by exists row.
  - apply well_formed_object in Hwf as [Hnd _].
    eexists _, _. split; [reflexivity|]. split_and!; try done.
    rewrite bool_decide_eq_true_2 by (by apply elem_of_singleton).
    rewrite (flat_map_keys props _ (fun kv => parseJsonToNodes {[ EmptyString ]} kv.2 kv.1 (0 + 1))).
    + simpl. apply Forall2_fmap_l, flat_map_Forall2. intros [k w] Hkw. simpl.
      destruct (collapsed_row {[ EmptyString ]} w k (0 + 1)) as (row & Hrow & ?).
      * apply not_elem_of_root. intros ->.
        simpl in Hk. rewrite forallb_forall in Hk.
        specialize (Hk EmptyString). rewrite <- list_elem_of_In in Hk.
        assert (EmptyString ∈ keys props) as Hin
          by (apply list_elem_of_fmap; by exists (EmptyString, w)).
        by specialize (Hk Hin).
      * by exists row.
    + intros k w Hkw. cbv beta zeta.
      rewrite own_with_fmap, (own_unique k props w Hnd Hkw). done.
Qed.

(** C10, as stated: the document [null] parses and the expanded paths are
    not reset; and below a root key that is the empty string the default
    view shows a row at level 2. *)
Lemma default_expansion_refuted :
  (RefJSON.JSON_parse "null" = Some JNull
   /\ expandedPaths (onChange RefJSON.JSON_parse "null" Examples.a_expanded)
      <> {[ EmptyString ]})
  /\ (expandedPaths (onChange RefJSON.JSON_parse Examples.empty_key initial)
      = {[ EmptyString ]}
      /\ exists row,
           row ∈ nodes (onChange RefJSON.JSON_parse Examples.empty_key initial)
           /\ level row = 2).
Proof.
  split_and!.
  - vm_compute; reflexivity.
  - intros H.
    assert ("a" ∈ expandedPaths (onChange RefJSON.JSON_parse "null" Examples.a_expanded))
      as Hin by (vm_compute; reflexivity).
    rewrite H in Hin. by apply elem_of_singleton in Hin.
  - vm_compute; reflexivity.
  - eexists. split; [|shelve].
    assert (nodes (onChange RefJSON.JSON_parse Examples.empty_key initial)
            = parseJsonToNodes {[ EmptyString ]} (JObject [("", JArray [JNumber 1])]) "" 0)
      as -> by (vm_compute; reflexivity).
    simpl. rewrite !bool_decide_eq_true_2 by (by apply elem_of_singleton). simpl.
    do 2 right. left.
    Unshelve. reflexivity.
Qed.

(** C10, amended: after every successful parse that yields a new document
    other than [null], and after collapse-all, the set of expanded paths is
    exactly the singleton of the root (empty) path; consequently, for an
    array or an object none of whose root keys is the empty string, shown
    in this default state, the rows are the root row marked expanded, then
    exactly one collapsed row per immediate child of the root, at level 1
    and in document order, and no deeper row. *)
Theorem default_expansion
    (JSON_parse : string -> option Value) (text : string) (v : Value) (st : State) :
  (blank text = false -> JSON_parse text = Some v -> v <> JNull ->
   same_dependency (parsedJson st) v = false ->
     expandedPaths (onChange JSON_parse text st) = {[ EmptyString ]})
  /\ expandedPaths (collapseAll st) = {[ EmptyString ]}
  /\ (is_primitive (parsedJson st) = false -> well_formed (parsedJson st) = true ->
      root_keys_not_empty (parsedJson st) = true ->
      expandedPaths st = {[ EmptyString ]} ->
        exists root rest,
          nodes st = root :: rest
          /\ value root = parsedJson st /\ level root = 0 /\ isExpanded root = true
          /\ Forall2
               (fun child row => value row = child /\ level row = 1 /\ isExpanded row = false)
               (children (parsedJson st)) rest).
Proof.
  split_and!.
  - intros Hb Hp Hv Hd. unfold onChange, handleJsonInput, runEffect.
    rewrite trim_is_empty, Hb, Hp. simpl. rewrite Hd.
    unfold resetExpanded. simpl. by destruct v.
  - reflexivity.
  - intros Hc Hwf Hk HE. unfold nodes. rewrite HE.
    assert (truthy (parsedJson st) = true) as ->
      by (by destruct (parsedJson st)).
    simpl. by apply rows_of_default_view.
Qed.

Lemma default_expansion_witness :
  expandedPaths (onChange RefJSON.JSON_parse Examples.one_nested Examples.a_expanded)
  = {[ EmptyString ]}
  /\ exists root rest,
       nodes (onChange RefJSON.JSON_parse Examples.one_nested initial) = root :: rest
       /\ value root = parsedJson (onChange RefJSON.JSON_parse Examples.one_nested initial)
       /\ level root = 0 /\ isExpanded root = true
       /\ Forall2
            (fun child row => value row = child /\ level row = 1 /\ isExpanded row = false)
            (children (parsedJson (onChange RefJSON.JSON_parse Examples.one_nested initial)))
            rest.
Proof.
  split.
  - refine (proj1 (default_expansion RefJSON.JSON_parse Examples.one_nested
                     (JObject [("a", JObject [("b", JNumber 1)])]) Examples.a_expanded)
              _ _ _ _).
    + reflexivity.
    + vm_compute; reflexivity.
    + discriminate.
    + reflexivity.
  - refine (proj2 (proj2 (default_expansion RefJSON.JSON_parse Examples.one_nested JNull
                            (onChange RefJSON.JSON_parse Examples.one_nested initial)))
              _ _ _ _).
    + reflexivity.
    + reflexivity.
    + reflexivity.
    + vm_compute; reflexivity.
Defined.

(** ** Sorting the keys *)

Import JsonTools.

Lemma sort_insert_perm x l : sort_insert x l ≡ₚ x :: l.
Proof.
  induction l as [|y l IH]; simpl; [done|].
  destruct (String.leb x y); [done|]. rewrite IH. apply Permutation_swap.
Qed.

Lemma sort_perm l : sort l ≡ₚ l.
Proof.
  induction l as [|x l IH]; simpl; [done|].
  rewrite sort_insert_perm. by constructor.
Qed.

Lemma sort_insert_HdRel a x l :
  key_le a x -> HdRel key_le a l -> HdRel key_le a (sort_insert x l).
Proof.
  intros Hax Hal. destruct l as [|y l]; simpl; [by constructor|].
  destruct (String.leb x y); constructor; [done|].
  by inversion Hal.
Qed.

Lemma sort_insert_Sorted x l : Sorted key_le l -> Sorted key_le (sort_insert x l).
Proof.
  induction 1 as [|y l Hl IH Hhd]; simpl; [by repeat constructor|].
  destruct (String.leb x y) eqn:Hxy.
  - constructor; [by constructor|]. by constructor.
  - constructor; [done|]. apply sort_insert_HdRel; [|done].
    by destruct (String.leb_total x y) as [H|H]; [rewrite H in Hxy|].
Qed.

Lemma sort_Sorted l : Sorted key_le (sort l).
Proof.
  induction l as [|x l IH]; simpl; [constructor|]. by apply sort_insert_Sorted.
Qed.

Lemma leb_ne_ltb a b : key_le a b -> a <> b -> key_lt a b.
Proof.
  unfold key_le, key_lt, String.leb, String.ltb. intros Hle Hne.
  destruct (String.compare a b) eqn:Hc; try done.
  by apply String.compare_eq_iff in Hc.
Qed.

(** Distinct keys in ascending order are in strictly ascending order. *)
Lemma Sorted_strict l : Sorted key_le l -> NoDup l -> Sorted key_lt l.
Proof.
  induction 1 as [|x l Hl IH Hhd]; intros Hnd; [constructor|].
  apply NoDup_cons in Hnd as [Hx Hnd]. constructor; [by apply IH|].
  destruct Hhd as [|y l Hxy]; constructor.
  apply leb_ne_ltb; [done|]. intros ->. apply Hx. left.
Qed.

Lemma sort_strict l : NoDup l -> Sorted key_lt (sort l).
Proof.
  intros Hnd. apply Sorted_strict; [apply sort_Sorted|].
  by rewrite sort_perm.
Qed.

(** A plain key that the object does not have becomes its last property. *)
Lemma add_own_plain k v props :
  array_index k = None -> add_own k v props = props ++ [(k, v)].
Proof.
  intros Hk. induction props as [|[k' w] rest IH]; simpl; [done|].
  by rewrite Hk, IH.
Qed.

Lemma assign_plain props k v :
  plain_key k = true -> k ∉ keys props -> assign props k v = props ++ [(k, v)].
Proof.
  unfold plain_key, assign, define_own. intros Hk Hnew.
  destruct (array_index k) eqn:Hidx; [done|].
  apply negb_true_iff in Hk. rewrite Hk.
  apply includes_false in Hnew. rewrite Hnew. by apply add_own_plain.
Qed.

(** The loop of [sortObjectKeys] over plain keys: one property per key, in
    the order of the loop. *)
Lemma assign_loop (f : Value -> Value) props ks acc :
  NoDup (keys acc ++ ks) ->
  Forall (fun k => plain_key k = true /\ is_Some (own k props)) ks ->
  fold_left
    (fun sortedObj key =>
       match own_with f key props with
       | Some v => assign sortedObj key v
       | None => sortedObj
       end) ks acc
  = acc ++ omap (fun k => (fun v => (k, f v)) <$> own k props) ks.
Proof.
  revert acc; induction ks as [|k ks IH]; intros acc Hnd Hks; simpl.
  - by rewrite app_nil_r.
  - apply Forall_cons in Hks as [[Hk [w Hw]] Hks].
    rewrite own_with_fmap, Hw. simpl.
    rewrite assign_plain; [|done|].
    + rewrite IH; [by rewrite <- app_assoc| |done].
      unfold keys. rewrite map_app, <- app_assoc. done.
    + apply NoDup_app in Hnd as (_ & Hd & _). intros Hin.
      apply (Hd k Hin). left.
Qed.

Lemma sortObjectKeys_object props :
  NoDup (keys props) ->
  Forall (fun k => plain_key k = true) (keys props) ->
  sortObjectKeys (JObject props)
  = JObject (omap (fun k => (fun v => (k, sortObjectKeys v)) <$> own k props)
               (sort (keys props))).
Proof.
  intros Hnd Hplain. cbn [sortObjectKeys]. f_equal.
  rewrite assign_loop; [done| |].
  - simpl. by rewrite sort_perm.
  - rewrite sort_perm. rewrite Forall_forall in Hplain |- *.
    intros k Hk. split; [by apply Hplain|by apply own_is_Some].
Qed.

Lemma keys_of_sorted (f : Value -> Value) props ks :
  Forall (fun k => is_Some (own k props)) ks ->
  keys (omap (fun k => (fun v => (k, f v)) <$> own k props) ks) = ks.
Proof.
  unfold keys. induction 1 as [|k ks [w Hw] Hks IH]; simpl; [done|].
  rewrite Hw. simpl. f_equal. exact IH.
Qed.

Lemma own_of_sorted (f : Value -> Value) props ks k w :
  k ∈ ks -> own k props = Some w ->
  own k (omap (fun k => (fun v => (k, f v)) <$> own k props) ks) = Some (f w).
Proof.
  intros Hin Hw. induction ks as [|k' ks IH]; [by apply elem_of_nil in Hin|].
  simpl. destruct (decide (k' = k)) as [->|Hne].
  - rewrite Hw. simpl. apply own_head.
  - apply elem_of_cons in Hin as [->|Hin]; [done|].
    destruct (own k' props); simpl; [|by apply IH].
    unfold own; simpl. destruct (String.eqb_spec k' k); [done|]. by apply IH.
Qed.

(** With distinct plain keys at every level, [sortObjectKeys] returns the
    sorted copy of the value. *)
Lemma sortObjectKeys_sorted_copy v :
  well_formed v = true -> all_keys plain_key v = true ->
  sorted_copy v (sortObjectKeys v).
Proof.
  induction v as [| b | n | s | items IH | props IH] using Value_ind;
    intros Hwf Hplain; try (by constructor).
  - apply well_formed_array in Hwf. apply all_keys_array in Hplain.
    cbn [sortObjectKeys]. constructor.
    apply Forall2_fmap_r, Forall_Forall2_diag.
    rewrite Forall_forall in IH, Hwf, Hplain |- *.
    intros x Hx. apply IH; auto.
  - apply well_formed_object in Hwf as [Hnd Hwf].
    apply all_keys_object in Hplain.
    assert (Forall (fun k => plain_key k = true) (keys props)) as Hkeys.
    { unfold keys. apply Forall_fmap. eapply Forall_impl; [exact Hplain|].
      by intros kv [? _]. }
    assert (Forall (fun k => is_Some (own k props)) (sort (keys props))) as Hown.
    { rewrite sort_perm. apply Forall_forall. intros k Hk. by apply own_is_Some. }
    rewrite sortObjectKeys_object by done.
    constructor.
    + rewrite (keys_of_sorted sortObjectKeys) by done. by apply sort_strict.
    + rewrite (keys_of_sorted sortObjectKeys) by done. apply sort_perm.
    + intros k w Hw. exists (sortObjectKeys w). split.
      * apply own_of_sorted; [|done]. rewrite sort_perm. apply own_is_Some. eauto.
      * rewrite Forall_forall in IH, Hwf, Hplain.
        pose proof (own_Some_elem _ _ _ Hw) as Hin.
        apply (IH (k, w) Hin); [apply (Hwf (k, w) Hin)|apply (Hplain (k, w) Hin)].
Qed.

(** C3, as stated: in compact mode the keys stay in the order of the input,
    here [b] before [a]; the output is not the serialisation of the sorted
    value. *)
Lemma compact_output_not_sorted :
  formattedJson RefJSON.JSON_parse RefJSON.JSON_stringify Examples.unsorted 2 true true
  = Examples.unsorted
  /\ (sortObjectKeys <$> RefJSON.JSON_parse Examples.unsorted) = Some Examples.unsorted_sorted
  /\ formattedJson RefJSON.JSON_parse RefJSON.JSON_stringify Examples.unsorted 2 true true
     <> RefJSON.JSON_stringify Examples.unsorted_sorted 0.
Proof.
  split_and!; [vm_compute; reflexivity..|].
  vm_compute. discriminate.
Qed.

(** C3, amended: with [compact = false] and for every indent width,
    formatting with [sortKeys = true] serialises the sorted copy of the
    parsed value: the keys of every object in ascending lexicographic order,
    at every level and inside arrays, the items of every array in place;
    this for values none of whose keys is an array index or ["__proto__"].
    With [compact = true] the parsed value is serialised as it is, whatever
    [sortKeys]. *)
Theorem sort_keys_when_not_compact
    (JSON_parse : string -> option Value) (JSON_stringify : Value -> nat -> string)
    (text : string) (v : Value) (indentSize : nat) (sortKeys : bool) :
  blank text = false -> JSON_parse text = Some v ->
  formattedJson JSON_parse JSON_stringify text indentSize sortKeys true
  = JSON_stringify v 0
  /\ (well_formed v = true -> all_keys plain_key v = true ->
      exists w,
        sorted_copy v w
        /\ formattedJson JSON_parse JSON_stringify text indentSize true false
           = JSON_stringify w indentSize).
Proof.
  intros Hb Hp. unfold formattedJson. rewrite trim_is_empty, Hb, Hp.
  split; [done|]. intros Hwf Hplain.
  exists (sortObjectKeys v). split; [|done].
  by apply sortObjectKeys_sorted_copy.
Qed.

Lemma sort_keys_when_not_compact_witness :
  formattedJson RefJSON.JSON_parse RefJSON.JSON_stringify
    Examples.unsorted_nested 4 true true
  = RefJSON.JSON_stringify Examples.unsorted_nested_value 0
  /\ exists w,
       sorted_copy Examples.unsorted_nested_value w
       /\ formattedJson RefJSON.JSON_parse RefJSON.JSON_stringify
            Examples.unsorted_nested 4 true false
          = RefJSON.JSON_stringify w 4.
Proof.
  destruct (sort_keys_when_not_compact RefJSON.JSON_parse RefJSON.JSON_stringify
              Examples.unsorted_nested Examples.unsorted_nested_value 4 true)
    as [H1 H2].
  - reflexivity.
  - vm_compute; reflexivity.
  - split; [exact H1|]. apply H2; reflexivity.
Defined.

(** Keys that are array indices come out in ascending numeric order, here
    [9] before [10], which is not their lexicographic order. *)
Lemma sorted_index_keys :
  formattedJson RefJSON.JSON_parse RefJSON.JSON_stringify Examples.index_keys 2 true false
  = RefJSON.JSON_stringify (JObject [("9", JNumber 2); ("10", JNumber 1)]) 2
  /\ String.ltb "10" "9" = true.
Proof. split; vm_compute; reflexivity. Qed.

(** ** Paths *)

Section Strings.

Lemma str_app_nil_l (s : string) : EmptyString +:+ s = s.
Proof. reflexivity. Qed.

Lemma str_app_cons c (s t : string) : String c s +:+ t = String c (s +:+ t).
Proof. reflexivity. Qed.

Lemma str_app_nil_r (s : string) : s +:+ EmptyString = s.
Proof. induction s as [|c s IH]; [done|]. by rewrite str_app_cons, IH. Qed.

Lemma str_app_assoc (a b c : string) : (a +:+ b) +:+ c = a +:+ (b +:+ c).
Proof. induction a as [|x a IH]; [done|]. by rewrite !str_app_cons, IH. Qed.

Lemma str_app_eq_self (p t : string) : p +:+ t = p -> t = EmptyString.
Proof.
  intros H. apply (inj (String.app p)). by rewrite str_app_nil_r.
Qed.

Lemma str_app_eq_nil (a b : string) : a +:+ b = EmptyString -> a = EmptyString.
Proof. by destruct a. Qed.

Lemma free_of_cons stop c s :
  free_of stop (String c s) = true <-> stop c = false /\ free_of stop s = true.
Proof.
  unfold free_of; simpl. rewrite andb_true_iff, negb_true_iff. done.
Qed.

(** Where a segment ends is determined by the text: two segments free of the
    stopping characters, each followed by nothing or by a stopping
    character, are equal when the texts are. *)
Lemma segment_unique stop (k k' t t' : string) :
  free_of stop k = true -> free_of stop k' = true ->
  starts_with stop t -> starts_with stop t' ->
  k +:+ t = k' +:+ t' -> k = k' /\ t = t'.
Proof.
  revert k'; induction k as [|c k IH]; intros [|c' k'] Hk Hk' Ht Ht' Heq.
  - done.
  - rewrite str_app_nil_l, str_app_cons in Heq. subst t. simpl in Ht.
    apply free_of_cons in Hk' as [Hc _]. congruence.
  - rewrite str_app_nil_l, str_app_cons in Heq. subst t'. simpl in Ht'.
    apply free_of_cons in Hk as [Hc _]. congruence.
  - rewrite !str_app_cons in Heq. injection Heq as -> Heq.
    apply free_of_cons in Hk as [_ Hk]. apply free_of_cons in Hk' as [_ Hk'].
    destruct (IH k' Hk Hk' Ht Ht' Heq) as [-> ->]. done.
Qed.

Lemma digits_free_of_closing d :
  free_of is_closing (NilEmpty.string_of_uint d) = true.
Proof. induction d; simpl; try done; by apply free_of_cons. Qed.

Lemma nat_to_string_inj i j : nat_to_string i = nat_to_string j -> i = j.
Proof.
  unfold nat_to_string. intros H.
  apply DecimalNat.Unsigned.to_uint_inj.
  apply (f_equal NilEmpty.uint_of_string) in H.
  rewrite !NilEmpty.usu in H. congruence.
Qed.

(** The index segments of two paths that agree are the same index. *)
Lemma index_segment_unique (p t t' : string) i j :
  (p +:+ "[" +:+ nat_to_string i +:+ "]") +:+ t
  = (p +:+ "[" +:+ nat_to_string j +:+ "]") +:+ t' ->
  i = j.
Proof.
  rewrite !str_app_assoc. intros H%(inj (String.app p)).
  rewrite !str_app_cons, !str_app_nil_l in H. injection H as H.
  apply nat_to_string_inj.
  apply (segment_unique is_closing) in H as [H _];
    [done|apply digits_free_of_closing..|done|done].
Qed.

End Strings.

Section Loops.
Context {A : Type}.

Lemma forEach_elem_of (f : Value -> nat -> list A) items s z :
  z ∈ forEach f items s <-> exists i x, items !! i = Some x /\ z ∈ f x (s + i).
Proof.
  revert s; induction items as [|x items IH]; intros s; simpl.
  - rewrite elem_of_nil. split; [done|]. by intros (i & y & H & _).
  - rewrite elem_of_app, IH. split.
    + intros [H|(i & y & Hy & H)].
      * exists 0, x. by rewrite Nat.add_0_r.
      * exists (S i), y. by rewrite Nat.add_succ_r.
    + intros ([|i] & y & Hy & H).
      * left. simpl in Hy. injection Hy as ->. by rewrite Nat.add_0_r in H.
      * right. exists i, y. by rewrite Nat.add_succ_r in H.
Qed.

Lemma NoDup_forEach (f : Value -> nat -> list A) items s :
  (forall x i, x ∈ items -> NoDup (f x i)) ->
  (forall i j x y z, items !! i = Some x -> items !! j = Some y ->
     z ∈ f x (s + i) -> z ∈ f y (s + j) -> i = j) ->
  NoDup (forEach f items s).
Proof.
  revert s; induction items as [|x items IH]; intros s Hnd Hsep; simpl;
    [apply NoDup_nil_2|].
  apply NoDup_app. split_and!.
  - apply Hnd. left.
  - intros z Hz (i & y & Hy & Hz')%forEach_elem_of.
    assert (0 = S i) as Heq; [|done].
    apply (Hsep 0 (S i) x y z); try done.
    + by rewrite Nat.add_0_r.
    + by rewrite Nat.add_succ_r.
  - apply IH.
    + intros y i Hy. apply Hnd. by right.
    + intros i j y y' z Hy Hy' Hz Hz'.
      assert (S i = S j) as Heq; [|by injection Heq].
      apply (Hsep (S i) (S j) y y' z); try done; by rewrite Nat.add_succ_r.
Qed.

Lemma NoDup_flat_map {B} (g : B -> list A) (l : list B) :
  NoDup l ->
  (forall x, x ∈ l -> NoDup (g x)) ->
  (forall x y z, x ∈ l -> y ∈ l -> z ∈ g x -> z ∈ g y -> x = y) ->
  NoDup (flat_map g l).
Proof.
  induction 1 as [|x l Hx Hl IH]; intros Hnd Hsep; simpl; [apply NoDup_nil_2|].
  apply NoDup_app. split_and!.
  - apply Hnd. left.
  - intros z Hz (y & Hy & Hz')%flat_map_elem_of.
    apply Hx. rewrite (Hsep x y z); try done; [left|by right].
  - apply IH.
    + intros y Hy. apply Hnd. by right.
    + intros y y' z Hy Hy'. apply Hsep; by right.
Qed.

Lemma forEach_sublist (f g : Value -> nat -> list A) items s :
  (forall x i, x ∈ items -> f x i `sublist_of` g x i) ->
  forEach f items s `sublist_of` forEach g items s.
Proof.
  revert s; induction items as [|x items IH]; intros s H; simpl; [done|].
  apply sublist_app; [apply H; left|].
  apply IH. intros y i Hy. apply H. by right.
Qed.

Lemma flat_map_sublist {B} (f g : B -> list A) (l : list B) :
  (forall x, x ∈ l -> f x `sublist_of` g x) ->
  flat_map f l `sublist_of` flat_map g l.
Proof.
  induction l as [|x l IH]; intros H; simpl; [done|].
  apply sublist_app; [apply H; left|].
  apply IH. intros y Hy. apply H. by right.
Qed.

Lemma map_forEach {B} (h : A -> B) (f : Value -> nat -> list A) items s :
  map h (forEach f items s) = forEach (fun x i => map h (f x i)) items s.
Proof.
  revert s; induction items as [|x items IH]; intros s; simpl; [done|].
  by rewrite map_app, IH.
Qed.

(** A [forEach] with its index, read as a loop over the indices. *)
Lemma forEach_indices (f : Value -> nat -> list A) items s :
  forEach f items s
  = flat_map (fun i => match items !! (i - s) with Some x => f x i | None => [] end)
      (seq s (length items)).
Proof.
  revert s; induction items as [|x items IH]; intros s; simpl; [done|].
  rewrite Nat.sub_diag. simpl. f_equal. rewrite IH.
  apply flat_map_ext_elem. intros i [Hi _]%elem_of_seq.
  by replace (i - s) with (S (i - S s)) by lia.
Qed.

End Loops.

Section PathsOfNodes.

Lemma under_self p : under p p.
Proof. exists EmptyString. by rewrite str_app_nil_r. Qed.

Lemma index_path_ne p i : index_path p i <> EmptyString.
Proof.
  unfold index_path. intros H. destruct p; [done|]. by rewrite str_app_cons in H.
Qed.

Lemma under_index_path p i z : under (index_path p i) z -> under p z /\ z <> p.
Proof.
  unfold index_path. intros (t & -> & Ht). rewrite str_app_assoc. split.
  - eexists. split; [reflexivity|]. by rewrite str_app_cons.
  - intros H%str_app_eq_self. by rewrite str_app_cons in H.
Qed.

Lemma addressable_ne k : addressable_key k = true -> k <> EmptyString.
Proof.
  unfold addressable_key. intros [H _]%andb_true_iff ->. done.
Qed.

Lemma key_path_ne p k : addressable_key k = true -> key_path p k <> EmptyString.
Proof.
  intros Hk%addressable_ne. unfold key_path.
  destruct p as [|c p]; simpl; [done|]. by rewrite str_app_cons.
Qed.

Lemma under_key_path p k z :
  addressable_key k = true -> under (key_path p k) z ->
  z <> p /\ (p <> EmptyString -> under p z).
Proof.
  intros Hk (t & -> & Ht). unfold key_path.
  destruct p as [|c p]; simpl.
  - split; [|done]. intros H%str_app_eq_nil. by apply addressable_ne in Hk.
  - rewrite str_app_assoc. split.
    + intros H%str_app_eq_self. by rewrite str_app_cons in H.
    + intros _. eexists. split; [reflexivity|]. by rewrite str_app_assoc, str_app_cons.
Qed.

Lemma key_segment_unique p k k' t t' :
  addressable_key k = true -> addressable_key k' = true ->
  starts_with is_separator t -> starts_with is_separator t' ->
  key_path p k +:+ t = key_path p k' +:+ t' -> k = k'.
Proof.
  unfold addressable_key. intros [_ Hk]%andb_true_iff [_ Hk']%andb_true_iff Ht Ht'.
  unfold key_path. destruct p as [|c p]; simpl.
  - intros H. by apply (segment_unique is_separator) in H as [H _].
  - rewrite !str_app_assoc. intros H%(inj (String.app (String c p))).
    rewrite !str_app_cons, !str_app_nil_l in H. injection H as H.
    by apply (segment_unique is_separator) in H as [H _].
Qed.

(** The paths below an object, as a loop over its properties. *)
Lemma getAllPaths_object props p :
  NoDup (keys props) ->
  getAllPaths (JObject props) p
  = p :: flat_map (fun kv => getAllPaths kv.2 (key_path p kv.1)) props.
Proof.
  intros Hnd. cbn [getAllPaths]. f_equal. apply flat_map_keys.
  intros k w Hkw. cbv beta zeta.
  by rewrite own_with_fmap, (own_unique k props w Hnd Hkw).
Qed.

(** With distinct addressable keys, the paths of the nodes of a value are
    pairwise distinct, and all of them continue the path of the value. *)
Lemma paths_of_nodes v :
  well_formed v = true -> all_keys addressable_key v = true ->
  forall p,
    NoDup (getAllPaths v p)
    /\ (p <> EmptyString -> Forall (under p) (getAllPaths v p)).
Proof.
  induction v as [| b | n | s | items IH | props IH] using Value_ind;
    intros Hwf Hkeys p;
    try (split; [apply NoDup_singleton|intros _; repeat constructor; apply under_self]).
  - apply well_formed_array in Hwf. apply all_keys_array in Hkeys.
    rewrite Forall_forall in IH, Hwf, Hkeys.
    assert (forall x i, x ∈ items ->
              NoDup (getAllPaths x (index_path p i))
              /\ Forall (under (index_path p i)) (getAllPaths x (index_path p i)))
      as Hpiece.
    { intros x i Hx. destruct (IH x Hx (Hwf x Hx) (Hkeys x Hx) (index_path p i)) as [H1 H2].
      split; [done|]. apply H2, index_path_ne. }
    assert (forall z, z ∈ forEach (fun item index => getAllPaths item (index_path p index)) items 0 ->
              exists i, under (index_path p i) z) as Hin.
    { intros z (i & x & Hx & Hz)%forEach_elem_of. exists i.
      destruct (Hpiece x i) as [_ H]; [by eapply list_elem_of_lookup_2|].
      rewrite Forall_forall in H. by apply H. }
    change (getAllPaths (JArray items) p)
      with (p :: forEach (fun item index => getAllPaths item (index_path p index)) items 0).
    split.
    + apply NoDup_cons. split.
      * intros (i & Hi)%Hin. by apply under_index_path in Hi as [_ Hi].
      * apply NoDup_forEach.
        -- intros x i Hx. by apply Hpiece.
        -- intros i j x y z Hx Hy Hz Hz'. simpl in Hz, Hz'.
           destruct (Hpiece x i) as [_ H]; [by eapply list_elem_of_lookup_2|].
           destruct (Hpiece y j) as [_ H']; [by eapply list_elem_of_lookup_2|].
           rewrite Forall_forall in H, H'.
           destruct (H z Hz) as (t & -> & _). destruct (H' _ Hz') as (t' & Heq & _).
           by apply index_segment_unique in Heq.
    + intros _. constructor; [apply under_self|].
      apply Forall_forall. intros z (i & Hi)%Hin.
      by apply under_index_path in Hi as [Hi _].
  - apply well_formed_object in Hwf as [Hnd Hwf]. apply all_keys_object in Hkeys.
    rewrite Forall_forall in IH, Hwf, Hkeys.
    assert (forall kv, kv ∈ props ->
              NoDup (getAllPaths kv.2 (key_path p kv.1))
              /\ Forall (under (key_path p kv.1)) (getAllPaths kv.2 (key_path p kv.1)))
      as Hpiece.
    { intros kv Hkv. destruct (Hkeys kv Hkv) as [Hk Hsub].
      destruct (IH kv Hkv (Hwf kv Hkv) Hsub (key_path p kv.1)) as [H1 H2].
      split; [done|]. by apply H2, key_path_ne. }
    assert (forall z, z ∈ flat_map (fun kv => getAllPaths kv.2 (key_path p kv.1)) props ->
              exists k, addressable_key k = true /\ under (key_path p k) z) as Hin.
    { intros z (kv & Hkv & Hz)%flat_map_elem_of. exists kv.1.
      split; [apply (Hkeys kv Hkv)|].
      destruct (Hpiece kv Hkv) as [_ H]. rewrite Forall_forall in H. by apply H. }
    rewrite getAllPaths_object by done. split.
    + apply NoDup_cons. split.
      * intros (k & Hk & Hz)%Hin. by apply under_key_path in Hz as [Hz _].
      * apply NoDup_flat_map.
        -- by apply NoDup_fmap_1 in Hnd.
        -- intros kv Hkv. by apply Hpiece.
        -- intros [k w] [k' w'] z Hkv Hkv' Hz Hz'.
           destruct (Hpiece _ Hkv) as [_ H]. destruct (Hpiece _ Hkv') as [_ H'].
           rewrite Forall_forall in H, H'.
           destruct (H z Hz) as (t & -> & Ht). destruct (H' _ Hz') as (t' & Heq & Ht').
           assert (k = k') as <-.
           { apply (key_segment_unique p k k' t t');
               [apply (Hkeys _ Hkv)|apply (Hkeys _ Hkv')|done..]. }
           f_equal. apply (own_unique _ _ _ Hnd) in Hkv, Hkv'. congruence.
    + intros Hp. constructor; [apply under_self|].
      apply Forall_forall. intros z (k & Hk & Hz)%Hin.
      apply under_key_path in Hz as [_ Hz]; auto.
Qed.

End PathsOfNodes.

(** The paths of the rows of the tree view are, in order, among the paths of
    the nodes. *)
Lemma rows_paths_sublist E v :
  forall p lvl,
    map JsonViewer.path (parseJsonToNodes E v p lvl) `sublist_of` getAllPaths v p.
Proof.
  induction v as [| b | n | s | items IH | props IH] using Value_ind; intros p lvl;
    try reflexivity.
  - cbn [parseJsonToNodes getAllPaths map JsonViewer.path]. apply sublist_skip.
    destruct (bool_decide _); [|apply sublist_nil_l].
    rewrite map_forEach. apply forEach_sublist. intros x i Hx.
    rewrite Forall_forall in IH. by apply IH.
  - cbn [parseJsonToNodes getAllPaths map JsonViewer.path]. apply sublist_skip.
    destruct (bool_decide _); [|apply sublist_nil_l].
    rewrite map_flat_map. apply flat_map_sublist. intros k _.
    rewrite !own_with_fmap. destruct (own k props) as [w|] eqn:Hw; [|done].
    simpl. rewrite Forall_forall in IH.
    apply (IH (k, w)). by apply own_Some_elem.
Qed.

Lemma or_root_ne p : p <> EmptyString -> or_root p = p.
Proof. unfold or_root, is_empty. by intros ->%String.eqb_neq. Qed.

Lemma forEach_indices_0 {A} (f : Value -> nat -> list A) items :
  forEach f items 0
  = flat_map (fun i => match items !! i with Some x => f x i | None => [] end)
      (seq 0 (length items)).
Proof.
  rewrite forEach_indices. apply flat_map_ext_elem. intros i _.
  by rewrite Nat.sub_0_r.
Qed.

(** The paths of the records of [diff(v, v)] are, in order, among the paths
    of the nodes of [v]. *)
Lemma diff_paths_sublist v :
  well_formed v = true -> all_keys addressable_key v = true ->
  forall p, p <> EmptyString \/ is_primitive v = false ->
    map JsonTools.path (generateSmartJsonDiff v v p) `sublist_of` getAllPaths v p.
Proof.
  induction v as [| b | n | s | items IH | props IH] using Value_ind;
    intros Hwf Hkeys p Hp;
    try (destruct Hp as [Hp|Hp]; [|done];
         rewrite diff_primitive by done; simpl; by rewrite or_root_ne).
  - apply well_formed_array in Hwf. apply all_keys_array in Hkeys.
    rewrite Forall_forall in IH, Hwf, Hkeys.
    rewrite diff_arrays, Nat.max_id. cbn [getAllPaths].
    rewrite forEach_indices_0, map_flat_map. apply sublist_cons.
    apply flat_map_sublist. intros i [_ Hi]%elem_of_seq. cbv zeta.
    destruct (lookup_lt_is_Some_2 items i Hi) as [x Hx]. rewrite Hx.
    apply list_elem_of_lookup_2 in Hx.
    apply IH; auto. left. apply index_path_ne.
  - apply well_formed_object in Hwf as [Hnd Hwf]. apply all_keys_object in Hkeys.
    rewrite Forall_forall in IH, Hwf, Hkeys.
    rewrite diff_objects, (new_Set_twice _ Hnd). cbn [getAllPaths].
    rewrite map_flat_map. apply sublist_cons.
    apply flat_map_sublist. intros k _. cbv zeta.
    rewrite own_with_fmap. destruct (own k props) as [w|] eqn:Hw; [|done].
    apply own_Some_elem in Hw. destruct (Hkeys _ Hw) as [Hk Hsub].
    apply (IH (k, w) Hw (Hwf _ Hw) Hsub). left. by apply key_path_ne.
Qed.

(** C8, as stated: in [{"a.b":1,"a":{"b":2}}] the node at key [a.b] and the
    node [b] below [a] get the same path, in the tree view and in the
    diff; so do the node at key [a[0]] and the first item of [a] in
    [{"a[0]":1,"a":[2]}], and the root and its child at the empty key in
    [{"":1}]. *)
Lemma paths_collide :
  (well_formed Examples.dotted_key = true
   /\ getAllPaths Examples.dotted_key "" = [""; "a.b"; "a"; "a.b"]
   /\ map JsonViewer.path
        (parseJsonToNodes (list_to_set (getAllPaths Examples.dotted_key ""))
           Examples.dotted_key "" 0)
      = [""; "a.b"; "a"; "a.b"]
   /\ map JsonTools.path (generateSmartJsonDiff Examples.dotted_key Examples.dotted_key "")
      = ["a.b"; "a.b"])
  /\ (well_formed Examples.bracket_key = true
      /\ getAllPaths Examples.bracket_key "" = [""; "a[0]"; "a"; "a[0]"]
      /\ map JsonTools.path
           (generateSmartJsonDiff Examples.bracket_key Examples.bracket_key "")
         = ["a[0]"; "a[0]"])
  /\ (well_formed Examples.empty_key_leaf = true
      /\ getAllPaths Examples.empty_key_leaf "" = [""; ""]).
Proof. split_and!; vm_compute; reflexivity. Qed.

(** C8, amended: for a parsed value whose keys, at every level, are not
    empty and hold neither ['.'] nor ['['], the path strings address the
    nodes uniquely: the paths of all nodes are pairwise distinct, and so are
    the paths of the rows of the tree view, whatever the expanded paths, and
    the paths of the records of the diff of the value with itself. *)
Theorem paths_address_nodes (v : Value) :
  well_formed v = true -> all_keys addressable_key v = true ->
  NoDup (getAllPaths v "")
  /\ (forall E, NoDup (map JsonViewer.path (parseJsonToNodes E v "" 0)))
  /\ NoDup (map JsonTools.path (generateSmartJsonDiff v v "")).
Proof.
  intros Hwf Hkeys.
  destruct (paths_of_nodes v Hwf Hkeys "") as [Hnd _].
  split_and!; [done| |].
  - intros E. refine (sublist_NoDup _ _ Hnd _). apply rows_paths_sublist.
  - destruct (is_primitive v) eqn:Hprim.
    + rewrite diff_primitive by (by rewrite Hprim). apply NoDup_singleton.
    + refine (sublist_NoDup _ _ Hnd _). apply diff_paths_sublist; auto.
Qed.

Lemma paths_address_nodes_witness :
  NoDup (getAllPaths Examples.nested "")
  /\ (forall E, NoDup (map JsonViewer.path (parseJsonToNodes E Examples.nested "" 0)))
  /\ NoDup (map JsonTools.path (generateSmartJsonDiff Examples.nested Examples.nested "")).
Proof.
  apply (paths_address_nodes Examples.nested); reflexivity.
Defined.

(** ** Deep equality and the round trip *)

Section DeepEquality.

Lemma forallb_pointwise {A} (f g : A -> bool) (l : list A) :
  (forall x, f x = g x) -> forallb f l = forallb g l.
Proof.
  intros H. induction l as [|x l IH]; simpl; [done|]. by rewrite H, IH.
Qed.

Lemma isEqual_arrays xs ys :
  isEqual (JArray xs) (JArray ys)
  = (length xs =? length ys)
    && forallb (fun i =>
                  match ys !! i, xs !! i with
                  | Some y, Some x => isEqual x y
                  | _, _ => false
                  end) (seq 0 (length xs)).
Proof.
  cbn [isEqual]. f_equal. apply forallb_pointwise. intros i.
  rewrite at_index_lookup. destruct (ys !! i) as [y|]; [|done].
  rewrite at_with_fmap. by destruct (xs !! i).
Qed.

Lemma isEqual_objects ps qs :
  isEqual (JObject ps) (JObject qs)
  = (length ps =? length qs)
    && forallb (fun k =>
                  match own k qs, own k ps with
                  | Some y, Some x => isEqual x y
                  | _, _ => false
                  end) (keys ps).
Proof.
  cbn [isEqual]. f_equal. apply forallb_pointwise. intros k.
  destruct (own k qs) as [y|]; [|done].
  rewrite own_with_fmap. by destruct (own k ps).
Qed.

(** [isEqual] holds between a value and itself. *)
Lemma isEqual_refl v : isEqual v v = true.
Proof.
  induction v as [| b | n | s | items IH | props IH] using Value_ind;
    try (by apply isEqual_primitive_refl).
  - rewrite isEqual_arrays, Nat.eqb_refl. simpl.
    apply forallb_forall. intros i [_ Hi]%list_elem_of_In%elem_of_seq.
    destruct (lookup_lt_is_Some_2 items i Hi) as [x Hx]. rewrite Hx.
    rewrite Forall_forall in IH. apply IH. by eapply list_elem_of_lookup_2.
  - rewrite isEqual_objects, Nat.eqb_refl. simpl.
    apply forallb_forall. intros k Hk%list_elem_of_In%own_is_Some.
    destruct Hk as [w Hw]. rewrite Hw.
    rewrite Forall_forall in IH. apply (IH (k, w)). by apply own_Some_elem.
Qed.

Lemma add_own_keys k v props : keys (add_own k v props) ≡ₚ k :: keys props.
Proof.
  induction props as [|[k' w] rest IH]; simpl; [done|].
  destruct (array_index k) as [n|].
  - destruct (array_index k') as [m|]; [|done].
    destruct (m <? n)%N; [|done]. simpl. rewrite IH. apply Permutation_swap.
  - simpl. rewrite IH. apply Permutation_swap.
Qed.

Lemma add_own_own_ne k k' v props :
  k' <> k -> own k' (add_own k v props) = own k' props.
Proof.
  intros Hne. induction props as [|[k0 w] rest IH]; cbn [add_own].
  - apply own_tail. by intros ->.
  - assert (own k' ((k0, w) :: add_own k v rest) = own k' ((k0, w) :: rest)) as Hcons.
    { destruct (decide (k0 = k')) as [->|Hk0]; [by rewrite !own_head|].
      by rewrite !own_tail. }
    destruct (array_index k) as [n|]; [|done].
    destruct (array_index k0) as [m|]; [|by apply own_tail].
    destruct (m <? n)%N; [done|by apply own_tail].
Qed.

Lemma add_own_own_eq k v props :
  k ∉ keys props -> own k (add_own k v props) = Some v.
Proof.
  induction props as [|[k0 w] rest IH]; cbn [add_own]; intros Hk; [apply own_head|].
  simpl in Hk. apply not_elem_of_cons in Hk as [Hne Hk].
  assert (own k ((k0, w) :: add_own k v rest) = Some v) as Hcons.
  { rewrite own_tail by done. by apply IH. }
  destruct (array_index k) as [n|]; [|done].
  destruct (array_index k0) as [m|]; [|apply own_head].
  destruct (m <? n)%N; [done|apply own_head].
Qed.

Lemma assign_new props k v :
  not_proto k = true -> k ∉ keys props -> assign props k v = add_own k v props.
Proof.
  unfold not_proto, assign, define_own. intros Hk%negb_true_iff Hnew%includes_false.
  by rewrite Hk, Hnew.
Qed.

(** The loop of [sortObjectKeys] over keys other than ["__proto__"]: the
    object it builds has the keys of the loop, each with the converted
    value. *)
Lemma assign_loop_own (f : Value -> Value) props ks :
  forall acc,
    NoDup ks -> (forall k, k ∈ ks -> k ∉ keys acc) ->
    Forall (fun k => not_proto k = true /\ is_Some (own k props)) ks ->
    let result :=
      fold_left
        (fun sortedObj key =>
           match own_with f key props with
           | Some v => assign sortedObj key v
           | None => sortedObj
           end) ks acc in
    keys result ≡ₚ keys acc ++ ks
    /\ (forall k w, k ∈ ks -> own k props = Some w -> own k result = Some (f w))
    /\ (forall k, k ∉ ks -> own k result = own k acc).
Proof.
  induction ks as [|k ks IH]; intros acc Hnd Hfresh Hks; simpl.
  - rewrite app_nil_r. split_and!; [done| |done].
    intros k w Hk. by apply elem_of_nil in Hk.
  - apply NoDup_cons in Hnd as [Hk Hnd].
    apply Forall_cons in Hks as [[Hproto [w Hw]] Hks].
    rewrite own_with_fmap, Hw. simpl.
    assert (k ∉ keys acc) as Hnew by (apply Hfresh; left).
    rewrite assign_new by done.
    destruct (IH (add_own k (f w) acc)) as (Hkeys & Hin & Hout); [done| |done|].
    { intros k' Hk'. rewrite add_own_keys. apply not_elem_of_cons. split.
      - intros ->. done.
      - apply Hfresh. by right. }
    split_and!.
    + rewrite Hkeys, add_own_keys. simpl. by rewrite Permutation_middle.
    + intros k' w' [->|Hk']%elem_of_cons Hw'.
      * rewrite Hout by done. rewrite add_own_own_eq by done. congruence.
      * by apply Hin.
    + intros k' [Hne Hk']%not_elem_of_cons.
      rewrite Hout by done. by apply add_own_own_ne.
Qed.

(** Without a ["__proto__"] key, [sortObjectKeys] returns a value deeply
    equal to its argument. *)
Lemma sortObjectKeys_isEqual v :
  well_formed v = true -> all_keys not_proto v = true ->
  isEqual (sortObjectKeys v) v = true.
Proof.
  induction v as [| b | n | s | items IH | props IH] using Value_ind;
    intros Hwf Hkeys; try (by apply isEqual_primitive_refl).
  - apply well_formed_array in Hwf. apply all_keys_array in Hkeys.
    rewrite Forall_forall in IH, Hwf, Hkeys.
    cbn [sortObjectKeys]. rewrite isEqual_arrays, length_map, Nat.eqb_refl. simpl.
    apply forallb_forall. intros i [_ Hi]%list_elem_of_In%elem_of_seq.
    destruct (lookup_lt_is_Some_2 items i Hi) as [x Hx].
    rewrite list_lookup_fmap, Hx. simpl.
    apply list_elem_of_lookup_2 in Hx. auto.
  - apply well_formed_object in Hwf as [Hnd Hwf]. apply all_keys_object in Hkeys.
    rewrite Forall_forall in IH, Hwf, Hkeys.
    cbn [sortObjectKeys].
    destruct (assign_loop_own sortObjectKeys props (sort (keys props)) [])
      as (Hperm & Hin & _).
    { by rewrite sort_perm. }
    { intros k _. apply not_elem_of_nil. }
    { rewrite sort_perm. apply Forall_forall. intros k Hk. split.
      - apply list_elem_of_fmap in Hk as (kv & -> & Hkv). apply (Hkeys kv Hkv).
      - by apply own_is_Some. }
    assert (Hperm' := Permutation_trans Hperm (sort_perm (keys props))).
    clear Hperm. rename Hperm' into Hperm.
    rewrite isEqual_objects. apply andb_true_iff. split.
    + apply Nat.eqb_eq. apply Permutation_length in Hperm.
      unfold keys in Hperm. by rewrite !length_map in Hperm.
    + apply forallb_forall. intros k Hk%list_elem_of_In.
      rewrite Hperm in Hk. pose proof Hk as [w Hw]%own_is_Some.
      rewrite Hw, (Hin k w); [|by rewrite sort_perm|done].
      apply own_Some_elem in Hw.
      apply (IH (k, w) Hw); [apply (Hwf _ Hw)|apply (Hkeys _ Hw)].
Qed.

(** The round trip, where it holds: when the host parses the text it has
    serialised back to the serialised value, the formatted text of a parsed
    value parses to a value deeply equal to it, for every indent width, in
    compact mode, without key sorting, and with key sorting when no key is
    ["__proto__"]. *)
Theorem format_round_trip
    (JSON_parse : string -> option Value) (JSON_stringify : Value -> nat -> string)
    (text : string) (v : Value) (indentSize : nat) (sortKeys compactMode : bool) :
  blank text = false -> JSON_parse text = Some v ->
  well_formed v = true ->
  compactMode = true \/ sortKeys = false \/ all_keys not_proto v = true ->
  (let '(w, space) := serialised v indentSize sortKeys compactMode in
   JSON_parse (JSON_stringify w space) = Some w) ->
  exists v',
    JSON_parse (formattedJson JSON_parse JSON_stringify text indentSize sortKeys compactMode)
    = Some v'
    /\ isEqual v' v = true.
Proof.
  intros Hb Hp Hwf Hopts. unfold formattedJson, serialised.
  rewrite trim_is_empty, Hb, Hp.
  destruct compactMode; [intros ->; eexists; split; [done|apply isEqual_refl]|].
  destruct sortKeys; [|intros ->; eexists; split; [done|apply isEqual_refl]].
  destruct Hopts as [?|[?|Hkeys]]; try done.
  intros ->. eexists. split; [done|]. by apply sortObjectKeys_isEqual.
Qed.

End DeepEquality.

Lemma format_round_trip_example :
  exists v',
    RefJSON.JSON_parse
      (formattedJson RefJSON.JSON_parse RefJSON.JSON_stringify
         Examples.index_keys 8 true false)
    = Some v'
    /\ isEqual v' Examples.index_keys_value = true.
Proof.
  apply (format_round_trip RefJSON.JSON_parse RefJSON.JSON_stringify
           Examples.index_keys Examples.index_keys_value 8 true false).
  - reflexivity.
  - vm_compute; reflexivity.
  - reflexivity.
  - right; right; reflexivity.
  - vm_compute; reflexivity.
Defined.

(** C5 at [{"__proto__":1}] with [sortKeys = true] and [compact = false]: the
    document parses to an object with the own key [__proto__]; the assignment
    [sortedObj[key] = ...] of [sortObjectKeys] creates no own property for that
    key, the formatted text is [{}], and the value it parses to is not deeply
    equal to the document. *)
Theorem sorted_format_loses_proto_key :
  RefJSON.JSON_parse Examples.proto_key = Some (JObject [("__proto__", JNumber 1)])
  /\ formattedJson RefJSON.JSON_parse RefJSON.JSON_stringify Examples.proto_key 2 true false
     = "{}"
  /\ RefJSON.JSON_parse "{}" = Some (JObject [])
  /\ isEqual (JObject []) (JObject [("__proto__", JNumber 1)]) = false
  /\ formattedJson RefJSON.JSON_parse RefJSON.JSON_stringify Examples.proto_key 2 false false
     = RefJSON.JSON_stringify (JObject [("__proto__", JNumber 1)]) 2.
Proof. split_and!; vm_compute; reflexivity. Qed.

(** * Further properties of the diff *)

Section DiffRecords.

Lemma record_ok_primitive a b path r :
  is_primitive a || is_primitive b = true ->
  r ∈ generateSmartJsonDiff a b path -> record_shape r /\ record_verdict r.
Proof.
  intros H. rewrite (diff_primitive a b) by done.
  intros ->%list_elem_of_singleton.
  unfold record_shape, record_verdict; simpl.
  destruct (isEqual a b) eqn:E; simpl; eauto.
Qed.

(** Every record of a diff has the values its kind asks for, and a kind that
    agrees with the deep equality of the two values it carries. *)
Lemma record_ok a :
  forall b path r,
    r ∈ generateSmartJsonDiff a b path -> record_shape r /\ record_verdict r.
Proof.
  induction a as [| x | n | s | la IH | lp IH] using Value_ind; intros b path r;
    try (by apply record_ok_primitive).
  - destruct b as [| x | n | s | ra | rp]; try (by apply record_ok_primitive).
    + rewrite diff_arrays, flat_map_elem_of. intros (i & Hi & Hr). cbv zeta in Hr.
      destruct (la !! i) as [x|] eqn:Hx, (ra !! i) as [y|] eqn:Hy.
      * rewrite Forall_forall in IH. eapply IH; [|exact Hr].
        by eapply list_elem_of_lookup_2.
      * apply list_elem_of_singleton in Hr as ->.
        unfold record_shape, record_verdict; simpl; eauto.
      * apply list_elem_of_singleton in Hr as ->.
        unfold record_shape, record_verdict; simpl; eauto.
      * apply elem_of_seq in Hi. apply lookup_ge_None in Hx, Hy. lia.
    + rewrite diff_kind_mismatch by done. intros ->%list_elem_of_singleton.
      unfold record_shape, record_verdict; simpl; eauto.
  - destruct b as [| x | n | s | ra | rp]; try (by apply record_ok_primitive).
    + rewrite diff_kind_mismatch by done. intros ->%list_elem_of_singleton.
      unfold record_shape, record_verdict; simpl; eauto.
    + rewrite diff_objects, flat_map_elem_of. intros (k & Hk & Hr). cbv zeta in Hr.
      destruct (own k lp) as [x|] eqn:Hx, (own k rp) as [y|] eqn:Hy.
      * rewrite Forall_forall in IH.
        eapply (IH (k, x)); [by apply own_Some_elem|exact Hr].
      * apply list_elem_of_singleton in Hr as ->.
        unfold record_shape, record_verdict; simpl; eauto.
      * apply list_elem_of_singleton in Hr as ->.
        unfold record_shape, record_verdict; simpl; eauto.
      * by apply elem_of_nil in Hr.
Qed.

End DiffRecords.

(** X1: in every diff, an [added] record has no left value and a right
    value, a [removed] record a left value and no right value, a [changed]
    or [unchanged] record both values. *)
Theorem diff_record_shape (a b : Value) (path : string) :
  Forall record_shape (generateSmartJsonDiff a b path).
Proof.
  apply Forall_forall. intros r Hr. by apply (record_ok a b path r).
Qed.

(** X2: in every diff, the two values of an [unchanged] record are deeply
    equal and the two values of a [changed] record are not. *)
Theorem diff_record_verdict (a b : Value) (path : string) :
  Forall record_verdict (generateSmartJsonDiff a b path).
Proof.
  apply Forall_forall. intros r Hr. by apply (record_ok a b path r).
Qed.

Section NoDifference.

Lemma Forall_flat_map {A B} (P : B -> Prop) (f : A -> list B) (l : list A) :
  Forall P (flat_map f l) <-> forall x, x ∈ l -> Forall P (f x).
Proof.
  split.
  - intros H x Hx. apply Forall_forall. intros y Hy.
    rewrite Forall_forall in H. apply H, flat_map_elem_of. eauto.
  - apply flat_map_Forall.
Qed.

Lemma only_diffs_nil (l : list JsonDiffResult) :
  filteredDiffResult true l = [] <-> Forall (fun r => type r = unchanged) l.
Proof.
  unfold filteredDiffResult. simpl.
  induction l as [|r l IH]; simpl; [done|].
  rewrite Forall_cons. unfold type_is at 1.
  destruct (type r); simpl; rewrite <- ?IH; naive_solver.
Qed.

Lemma unchanged_primitive a b path :
  is_primitive a || is_primitive b = true ->
  Forall (fun r => type r = unchanged) (generateSmartJsonDiff a b path)
  <-> isEqual a b = true.
Proof.
  intros H. rewrite diff_primitive by done.
  rewrite Forall_singleton. simpl. by destruct (isEqual a b).
Qed.

(** The keys of two objects with distinct keys, when every key of the one is
    a key of the other and the other has no more properties. *)
Lemma same_keys lp rp :
  NoDup (keys lp) ->
  (forall k, k ∈ keys lp -> k ∈ keys rp) -> length rp <= length lp ->
  forall k, k ∈ keys rp -> k ∈ keys lp.
Proof.
  intros Hnd Hsub Hlen k Hk.
  assert (keys lp ≡ₚ keys rp) as Hperm.
  { apply submseteq_length_Permutation; [by apply NoDup_submseteq|].
    unfold keys. by rewrite !length_map. }
  by rewrite Hperm.
Qed.

(** A diff holds [unchanged] records only exactly when the two values are
    deeply equal. *)
Lemma unchanged_iff_isEqual a :
  forall b path, well_formed a = true -> well_formed b = true ->
    Forall (fun r => type r = unchanged) (generateSmartJsonDiff a b path)
    <-> isEqual a b = true.
Proof.
  induction a as [| x | n | s | la IH | lp IH] using Value_ind; intros b path Ha Hb;
    try (by apply unchanged_primitive).
  - destruct b as [| x | n | s | ra | rp]; try (by apply unchanged_primitive).
    2:{ rewrite diff_kind_mismatch by done. rewrite Forall_singleton. done. }
    apply well_formed_array in Ha, Hb.
    rewrite Forall_forall in IH, Ha, Hb.
    rewrite diff_arrays, Forall_flat_map, isEqual_arrays, andb_true_iff, Nat.eqb_eq.
    rewrite forallb_forall.
    assert (forall i x y, la !! i = Some x -> ra !! i = Some y ->
              forall p, Forall (fun r => type r = unchanged) (generateSmartJsonDiff x y p)
                        <-> isEqual x y = true) as Hrec.
    { intros i x y Hx%list_elem_of_lookup_2 Hy%list_elem_of_lookup_2 p.
      apply (IH x Hx); [apply (Ha _ Hx)|apply (Hb _ Hy)]. }
    split.
    + intros H.
      assert (length la = length ra) as Hlen.
      { destruct (Nat.lt_trichotomy (length la) (length ra)) as [Hlt|[?|Hlt]]; [|done|].
        - specialize (H (length la)). cbv zeta in H.
          rewrite (lookup_ge_None_2 la) in H by done.
          rewrite elem_of_seq, Forall_singleton in H. simpl in H.
          assert (added = unchanged) by (apply H; lia). done.
        - specialize (H (length ra)). cbv zeta in H.
          destruct (lookup_lt_is_Some_2 la (length ra) Hlt) as [x Hx].
          rewrite Hx, (lookup_ge_None_2 ra) in H by done.
          rewrite elem_of_seq, Forall_singleton in H. simpl in H.
          assert (removed = unchanged) by (apply H; lia). done. }
      split; [done|]. intros i [_ Hi]%list_elem_of_In%elem_of_seq. simpl in Hi.
      destruct (lookup_lt_is_Some_2 la i Hi) as [x Hx].
      destruct (lookup_lt_is_Some_2 ra i) as [y Hy]; [lia|]. rewrite Hx, Hy.
      specialize (H i). cbv zeta in H. rewrite Hx, Hy in H.
      eapply (proj1 (Hrec i x y Hx Hy _)). apply H, elem_of_seq. lia.
    + intros [Hlen H] i [_ Hi]%elem_of_seq. cbv zeta. simpl in Hi.
      rewrite <- Hlen, Nat.max_id in Hi.
      specialize (H i). rewrite <- list_elem_of_In, elem_of_seq in H.
      destruct (lookup_lt_is_Some_2 la i Hi) as [x Hx].
      destruct (lookup_lt_is_Some_2 ra i) as [y Hy]; [lia|]. rewrite Hx, Hy in H |- *.
      apply (proj2 (Hrec i x y Hx Hy _)). apply H. lia.
  - destruct b as [| x | n | s | ra | rp]; try (by apply unchanged_primitive).
    1:{ rewrite diff_kind_mismatch by done. rewrite Forall_singleton. done. }
    apply well_formed_object in Ha as [Hnda Ha], Hb as [Hndb Hb].
    rewrite Forall_forall in IH, Ha, Hb.
    rewrite diff_objects, Forall_flat_map, isEqual_objects, andb_true_iff, Nat.eqb_eq.
    rewrite forallb_forall.
    assert (forall k x y, own k lp = Some x -> own k rp = Some y ->
              forall p, Forall (fun r => type r = unchanged) (generateSmartJsonDiff x y p)
                        <-> isEqual x y = true) as Hrec.
    { intros k x y Hx%own_Some_elem Hy%own_Some_elem p.
      apply (IH (k, x) Hx); [apply (Ha _ Hx)|apply (Hb _ Hy)]. }
    split.
    + intros H.
      assert (forall k, k ∈ keys lp -> k ∈ keys rp) as Hlr.
      { intros k Hk. apply own_is_Some. destruct (own k rp) as [y|] eqn:Hy; [eauto|].
        pose proof Hk as [x Hx]%own_is_Some.
        specialize (H k). cbv zeta in H. rewrite Hx, Hy, Forall_singleton in H.
        assert (removed = unchanged); [|done].
        apply H, new_Set_elem_of, elem_of_app. by left. }
      assert (forall k, k ∈ keys rp -> k ∈ keys lp) as Hrl.
      { intros k Hk. apply own_is_Some. destruct (own k lp) as [x|] eqn:Hx; [eauto|].
        pose proof Hk as [y Hy]%own_is_Some.
        specialize (H k). cbv zeta in H. rewrite Hx, Hy, Forall_singleton in H.
        assert (added = unchanged); [|done].
        apply H, new_Set_elem_of, elem_of_app. by right. }
      split.
      * assert (keys lp ≡ₚ keys rp) as Hperm by (apply NoDup_Permutation; naive_solver).
        apply Permutation_length in Hperm. unfold keys in Hperm.
        by rewrite !length_map in Hperm.
      * intros k Hk%list_elem_of_In.
        pose proof Hk as [x Hx]%own_is_Some.
        pose proof (Hlr k Hk) as [y Hy]%own_is_Some. rewrite Hx, Hy.
        specialize (H k). cbv zeta in H. rewrite Hx, Hy in H.
        eapply (proj1 (Hrec k x y Hx Hy _)).
        apply H, new_Set_elem_of, elem_of_app. by left.
    + intros [Hlen H] k Hk%new_Set_elem_of%elem_of_app. cbv zeta.
      assert (forall k, k ∈ keys lp -> k ∈ keys rp) as Hlr.
      { intros k' Hk'. apply own_is_Some. specialize (H k').
        rewrite <- list_elem_of_In in H. specialize (H Hk').
        destruct (own k' rp); [eauto|done]. }
      assert (k ∈ keys lp) as Hkl.
      { destruct Hk as [?|Hk]; [done|].
        apply (same_keys lp rp); try done. lia. }
      specialize (H k). rewrite <- list_elem_of_In in H. specialize (H Hkl).
      destruct (own k rp) as [y|] eqn:Hy; [|done].
      destruct (own k lp) as [x|] eqn:Hx; [|done].
      by apply (proj2 (Hrec k x y Hx Hy _)).
Qed.

End NoDifference.

(** X3: for two parsed values, the diff shown with "only differences" on is
    empty exactly when the two values are deeply equal (lodash [isEqual],
    which ignores the order of object keys). *)
Theorem only_diffs_empty_iff_equal (a b : Value) (path : string) :
  well_formed a = true -> well_formed b = true ->
  filteredDiffResult true (generateSmartJsonDiff a b path) = []
  <-> isEqual a b = true.
Proof.
  intros Ha Hb. rewrite only_diffs_nil. by apply unchanged_iff_isEqual.
Qed.

Lemma only_diffs_empty_iff_equal_witness :
  filteredDiffResult true
    (generateSmartJsonDiff Examples.unsorted_sorted
       (JObject [("b", JNumber 1); ("a", JNumber 2)]) "") = [].
Proof.
  apply (only_diffs_empty_iff_equal Examples.unsorted_sorted
           (JObject [("b", JNumber 1); ("a", JNumber 2)]) ""); reflexivity.
Defined.

(** ** The diff without a record *)

Section EmptyDiff.

Lemma flat_map_nil {A B} (f : A -> list B) (l : list A) :
  flat_map f l = [] <-> forall x, x ∈ l -> f x = [].
Proof.
  induction l as [|x l IH]; simpl.
  - split; [intros _ x Hx; by apply elem_of_nil in Hx|done].
  - rewrite app_nil, IH. setoid_rewrite elem_of_cons. naive_solver.
Qed.

(** A value without a primitive at any depth gives no [unchanged] record. *)
Lemma hollow_no_unchanged a :
  forall b path, leaves a = [] ->
    Forall (fun r => type r <> unchanged) (generateSmartJsonDiff a b path).
Proof.
  induction a as [| x | n | s | la IH | lp IH] using Value_ind; intros b path Hl;
    try done.
  - destruct b as [| x | n | s | ra | rp];
      try (rewrite diff_primitive by done; by apply Forall_singleton).
    2:{ rewrite diff_kind_mismatch by done. by apply Forall_singleton. }
    cbn [leaves] in Hl. rewrite flat_map_nil in Hl. rewrite Forall_forall in IH.
    rewrite diff_arrays. apply flat_map_Forall. intros i Hi. cbv zeta.
    destruct (la !! i) as [x|] eqn:Hx, (ra !! i) as [y|] eqn:Hy;
      try (by apply Forall_singleton).
    apply list_elem_of_lookup_2 in Hx. apply (IH x Hx). by apply Hl.
  - destruct b as [| x | n | s | ra | rp];
      try (rewrite diff_primitive by done; by apply Forall_singleton).
    1:{ rewrite diff_kind_mismatch by done. by apply Forall_singleton. }
    cbn [leaves] in Hl. rewrite flat_map_nil in Hl. rewrite Forall_forall in IH.
    rewrite diff_objects. apply flat_map_Forall. intros k Hk. cbv zeta.
    destruct (own k lp) as [x|] eqn:Hx, (own k rp) as [y|] eqn:Hy;
      try (by apply Forall_singleton); [|done].
    apply own_Some_elem in Hx. apply (IH (k, x) Hx). apply (Hl (k, x) Hx).
Qed.

(** A diff without a record: the left value holds no primitive. *)
Lemma empty_diff_hollow a :
  forall b path, well_formed a = true ->
    generateSmartJsonDiff a b path = [] -> leaves a = [].
Proof.
  induction a as [| x | n | s | la IH | lp IH] using Value_ind; intros b path Ha;
    try (by rewrite diff_primitive).
  - destruct b as [| x | n | s | ra | rp]; try (by rewrite diff_primitive).
    2:{ by rewrite diff_kind_mismatch. }
    apply well_formed_array in Ha. rewrite Forall_forall in IH, Ha.
    rewrite diff_arrays. cbn [leaves]. rewrite !flat_map_nil.
    intros H x Hx. pose proof Hx as [i Hi]%list_elem_of_lookup_1.
    specialize (H i). cbv zeta in H. rewrite Hi in H.
    assert (i ∈ seq 0 (length la `max` length ra)) as Hin.
    { apply elem_of_seq. apply lookup_lt_Some in Hi. lia. }
    destruct (ra !! i) as [y|]; [|by specialize (H Hin)].
    apply (IH x Hx y _ (Ha x Hx) (H Hin)).
  - destruct b as [| x | n | s | ra | rp]; try (by rewrite diff_primitive).
    1:{ by rewrite diff_kind_mismatch. }
    apply well_formed_object in Ha as [Hnd Ha]. rewrite Forall_forall in IH, Ha.
    rewrite diff_objects. cbn [leaves]. rewrite !flat_map_nil.
    intros H [k x] Hx. specialize (H k). cbv zeta in H.
    rewrite (own_unique k lp x Hnd Hx) in H.
    assert (k ∈ new_Set (keys lp ++ keys rp)) as Hin.
    { apply new_Set_elem_of, elem_of_app. left. unfold keys.
      apply list_elem_of_fmap. by exists (k, x). }
    destruct (own k rp) as [y|]; [|by specialize (H Hin)].
    apply (IH (k, x) Hx y _ (Ha _ Hx) (H Hin)).
Qed.

End EmptyDiff.

(** X4: the diff of two parsed values has no record at all exactly when the
    values are deeply equal and hold no primitive value at any depth: empty
    arrays and objects only.  Two equal documents with a primitive in them
    give [unchanged] records, not the empty diff. *)
Theorem diff_empty_iff_hollow (a b : Value) (path : string) :
  well_formed a = true -> well_formed b = true ->
  generateSmartJsonDiff a b path = [] <-> isEqual a b = true /\ leaves a = [].
Proof.
  intros Ha Hb. split.
  - intros H. split; [|by apply (empty_diff_hollow a b path)].
    apply (unchanged_iff_isEqual a b path Ha Hb). rewrite H. constructor.
  - intros [He Hl].
    apply (unchanged_iff_isEqual a b path Ha Hb) in He.
    pose proof (hollow_no_unchanged a b path Hl) as Hn.
    destruct (generateSmartJsonDiff a b path) as [|r rs]; [done|].
    apply Forall_cons in He as [He _]. apply Forall_cons in Hn as [Hn _]. done.
Qed.

Lemma diff_empty_iff_hollow_witness :
  generateSmartJsonDiff (JArray [JArray []; JObject []]) (JArray [JArray []; JObject []])
    "" = [].
Proof.
  apply (diff_empty_iff_hollow (JArray [JArray []; JObject []])
           (JArray [JArray []; JObject []]) ""); [reflexivity..|].
  split; reflexivity.
Defined.

(** ** The diff with its sides exchanged *)

Section Exchange.

Lemma flat_map_perm {A B} (f g : A -> list B) (l l' : list A) :
  l ≡ₚ l' -> (forall x, x ∈ l -> f x ≡ₚ g x) -> flat_map f l ≡ₚ flat_map g l'.
Proof.
  intros Hl Hfg. rewrite <- (Permutation_flat_map g Hl).
  clear l' Hl. induction l as [|x l IH]; simpl; [done|].
  rewrite (Hfg x) by left. apply Permutation_app_head, IH.
  intros y Hy. apply Hfg. by right.
Qed.

Lemma mirror_primitive a b path :
  is_primitive a || is_primitive b = true ->
  generateSmartJsonDiff b a path = map mirror (generateSmartJsonDiff a b path).
Proof.
  intros H. rewrite (diff_primitive a b) by done.
  rewrite (diff_primitive b a) by (by rewrite orb_comm).
  simpl. unfold mirror; simpl.
  rewrite (isEqual_sym_primitive b a) by (by rewrite orb_comm).
  by destruct (isEqual a b).
Qed.

(** The diff of [b] against [a] holds the mirrored records of the diff of
    [a] against [b], each as often. *)
Lemma diff_exchange a :
  forall b path,
    generateSmartJsonDiff b a path ≡ₚ map mirror (generateSmartJsonDiff a b path).
Proof.
  induction a as [| x | n | s | la IH | lp IH] using Value_ind; intros b path;
    try (by rewrite mirror_primitive).
  - destruct b as [| x | n | s | ra | rp]; try (by rewrite mirror_primitive).
    2:{ by rewrite !diff_kind_mismatch. }
    rewrite !diff_arrays, map_flat_map, Nat.max_comm.
    apply flat_map_perm; [done|]. intros i Hi. cbv zeta.
    destruct (la !! i) as [x|] eqn:Hx, (ra !! i) as [y|] eqn:Hy;
      [|reflexivity..|].
    + rewrite Forall_forall in IH. apply (IH x). by eapply list_elem_of_lookup_2.
    + apply elem_of_seq in Hi. apply lookup_ge_None in Hx, Hy. lia.
  - destruct b as [| x | n | s | ra | rp]; try (by rewrite mirror_primitive).
    1:{ by rewrite !diff_kind_mismatch. }
    rewrite !diff_objects, map_flat_map.
    apply flat_map_perm.
    + apply NoDup_Permutation; [apply new_Set_NoDup..|].
      intros k. rewrite !new_Set_elem_of, !elem_of_app. tauto.
    + intros k Hk. cbv zeta.
      destruct (own k lp) as [x|] eqn:Hx, (own k rp) as [y|] eqn:Hy;
        [|reflexivity..].
      rewrite Forall_forall in IH. apply (IH (k, x)). by apply own_Some_elem.
Qed.

Lemma badgeCount_perm t l l' : l ≡ₚ l' -> badgeCount t l = badgeCount t l'.
Proof.
  unfold badgeCount. induction 1 as [|r l l' _ IH|r r' l|l l' l'' _ IH1 _ IH2]; simpl.
  - done.
  - destruct (type_is t r); simpl; by rewrite IH.
  - by destruct (type_is t r), (type_is t r').
  - by rewrite IH1.
Qed.

Lemma badgeCount_mirror t l :
  badgeCount t (map mirror l)
  = badgeCount (match t with added => removed | removed => added | t => t end) l.
Proof.
  unfold badgeCount. induction l as [|r l IH]; simpl; [done|].
  assert (type_is t (mirror r)
          = type_is (match t with added => removed | removed => added | t => t end) r)
    as -> by (destruct r as [p [] x y], t; reflexivity).
  destruct (type_is _ r); simpl; by rewrite IH.
Qed.

End Exchange.

(** X5: exchanging the two documents mirrors the diff record by record, up
    to the order of the records: the diff of [b] against [a] is a
    rearrangement of the diff of [a] against [b] with [added] and [removed]
    and the two values exchanged in every record. *)
Theorem diff_exchanged_is_mirrored (a b : Value) (path : string) :
  generateSmartJsonDiff b a path ≡ₚ map mirror (generateSmartJsonDiff a b path).
Proof. apply diff_exchange. Qed.

(** X6: the badges of the comparison: exchanging the two documents
    exchanges the counts of [added] and [removed] records and keeps the
    count of [changed] records. *)
Theorem badges_of_exchanged_diff (a b : Value) (path : string) :
  badgeCount added (generateSmartJsonDiff b a path)
  = badgeCount removed (generateSmartJsonDiff a b path)
  /\ badgeCount removed (generateSmartJsonDiff b a path)
     = badgeCount added (generateSmartJsonDiff a b path)
  /\ badgeCount changed (generateSmartJsonDiff b a path)
     = badgeCount changed (generateSmartJsonDiff a b path).
Proof.
  split_and!; rewrite (badgeCount_perm _ _ _ (diff_exchange a b path));
    by rewrite badgeCount_mirror.
Qed.

(** X7: the count on the comparison tab, the number of records that are not
    [unchanged], is the number of rows listed with "only differences" on
    and the sum of the [added], [removed] and [changed] badges. *)
Theorem difference_count (diffResult : list JsonDiffResult) :
  length (filteredDiffResult true diffResult)
  = badgeCount added diffResult + badgeCount removed diffResult
    + badgeCount changed diffResult.
Proof.
  unfold filteredDiffResult, badgeCount. simpl.
  induction diffResult as [|[p [] x y] l IH]; simpl in *; lia.
Qed.
